(** * Stonefish: Featherstone multi-body trees and the 360-degree LiDAR

    The header [FeatherstoneEntity.h] (struct [FeatherstoneLink], struct
    [FeatherstoneJoint] with its constructor, and the declarations of class
    [FeatherstoneEntity]) is embedded from the source.  The member functions
    of [FeatherstoneEntity] are declared there but their definitions are not
    part of the sources at hand; they are modelled from the specification and
    marked so.  The numeric type [btScalar] is read as exact rationals [Q]
    for the tree and as reals [R] for the sensor (square roots and
    trigonometry); the external physics back end (forward dynamics, reaction
    forces, link kinematics, ray queries) is a parameter. *)

From Stdlib Require Import List Arith Lia Bool QArith Qminmax Reals Lra.
From Stdlib Require Strings.String.
From Stdlib Require Import NArith.
Import ListNotations.

Module Featherstone.

Local Open Scope Q_scope.

(** ** Source data model *)

(** [btVector3] *)
Record btVector3 := V3 { vx : Q; vy : Q; vz : Q }.

Definition vzero : btVector3 := V3 0 0 0.

Definition vadd (a b : btVector3) : btVector3 :=
  V3 (vx a + vx b) (vy a + vy b) (vz a + vz b).

Definition vscale (s : Q) (a : btVector3) : btVector3 :=
  V3 (s * vx a) (s * vy a) (s * vz a).

(** [btVector3::cross] and [btVector3::dot] *)
Definition cross (a b : btVector3) : btVector3 :=
  V3 (vy a * vz b - vz a * vy b)
     (vz a * vx b - vx a * vz b)
     (vx a * vy b - vy a * vx b).

Definition dot (a b : btVector3) : Q :=
  vx a * vx b + vy a * vy b + vz a * vz b.

(** [btTransform]: basis columns and origin. *)
Record btTransform := BtTransform {
  basis0 : btVector3; basis1 : btVector3; basis2 : btVector3;
  tr_origin : btVector3 }.

Definition btTransform_identity : btTransform :=
  BtTransform (V3 1 0 0) (V3 0 1 0) (V3 0 0 1) vzero.

(** [btMultibodyLink::eFeatherstoneJointType] *)
Inductive eFeatherstoneJointType :=
  eRevolute | ePrismatic | eSpherical | ePlanar | eFixed | eInvalid.

Definition is_fixed (t : eFeatherstoneJointType) : bool :=
  match t with eFixed => true | _ => false end.

(** The [SolidEntity] a link refers to: an identity and its mass. *)
Record SolidEntity := MkSolid { solid_id : nat; solid_mass : Q }.

(** struct [FeatherstoneLink] *)
Record FeatherstoneLink := MkFeatherstoneLink {
  solid : SolidEntity;
  trans : btTransform }.

(** [btMultiBodyJointFeedback]: the reaction force on the child's centre of
    mass and the vector from that centre of mass to the joint pivot, both in
    the child's centre-of-mass frame, as filled in by the back end. *)
Record btMultiBodyJointFeedback := MkFeedback {
  reactionForce : btVector3;
  comToPivot : btVector3 }.

Definition feedback0 : btMultiBodyJointFeedback := MkFeedback vzero vzero.

(** [btMultiBodyJointLimitConstraint] *)
Record btMultiBodyJointLimitConstraint := MkLimit {
  lowerBound : Q; upperBound : Q }.

(** [btMultiBodyJointMotor]: idle, position servo or velocity servo. *)
Inductive MotorLaw :=
  | MotorIdle
  | MotorPosition (pos kp : Q)
  | MotorVelocity (vel kd : Q).

Record btMultiBodyJointMotor := MkMotor { motor_law : MotorLaw }.

(** struct [FeatherstoneJoint] *)
Record FeatherstoneJoint := MkFeatherstoneJoint {
  type : eFeatherstoneJointType;
  feedback : option btMultiBodyJointFeedback;
  limit : option btMultiBodyJointLimitConstraint;
  motor : option btMultiBodyJointMotor;
  parent : nat;
  child : nat;
  sigDamping : Q;
  velDamping : Q }.

(** The constructor [FeatherstoneJoint(t, p, c)]:
    [type(t), feedback(NULL), limit(NULL), motor(NULL), parent(p), child(c),
     sigDamping(0), velDamping(0)]. *)
Definition mkFeatherstoneJoint (t : eFeatherstoneJointType) (p c : nat)
  : FeatherstoneJoint :=
  MkFeatherstoneJoint t None None None p c 0 0.

Definition set_feedback (j : FeatherstoneJoint) o : FeatherstoneJoint :=
  MkFeatherstoneJoint (type j) o (limit j) (motor j)
    (parent j) (child j) (sigDamping j) (velDamping j).

Definition set_limit (j : FeatherstoneJoint) o : FeatherstoneJoint :=
  MkFeatherstoneJoint (type j) (feedback j) o (motor j)
    (parent j) (child j) (sigDamping j) (velDamping j).

Definition set_motor (j : FeatherstoneJoint) o : FeatherstoneJoint :=
  MkFeatherstoneJoint (type j) (feedback j) (limit j) o
    (parent j) (child j) (sigDamping j) (velDamping j).

Definition set_damping (j : FeatherstoneJoint) (s v : Q) : FeatherstoneJoint :=
  MkFeatherstoneJoint (type j) (feedback j) (limit j) (motor j)
    (parent j) (child j) s v.

(** ** The back-end multi-body object

    Modelled from the spec: the [btMultiBody] owned by the tree, whose
    per-link generalized coordinates and velocities are the runtime state.
    Link [k] of the multi-body is link [k+1] of the tree (the base has no
    joint).  Generalized forces injected in a step are kept per source:
    manually applied ones ([DriveJoint]) and damping ([ApplyDamping]);
    Cartesian loads on links are kept per tree link. *)
Record btMultiBody := MkMultiBody {
  fixedBase : bool;
  jointPos : list Q;
  jointVel : list Q;
  manualTorque : list Q;
  dampingTorque : list Q;
  jointAxis : list btVector3;
  jointPivot : list btVector3;
  linkForce : list btVector3;
  linkTorque : list btVector3 }.

(** Lifecycle of the tree. *)
Inductive Phase := Unattached | Attached | Stepping.

Definition phase_eqb (a b : Phase) : bool :=
  match a, b with
  | Unattached, Unattached | Attached, Attached | Stepping, Stepping => true
  | _, _ => false
  end.

(** class [FeatherstoneEntity] (private members and the declared link count). *)
Record FeatherstoneEntity := MkEntity {
  totalNumOfLinks : nat;
  multiBody : btMultiBody;
  links : list FeatherstoneLink;
  joints : list FeatherstoneJoint;
  baseRenderable : bool;
  phase : Phase }.

Definition set_multiBody (t : FeatherstoneEntity) mb : FeatherstoneEntity :=
  MkEntity (totalNumOfLinks t) mb (links t) (joints t) (baseRenderable t) (phase t).

Definition set_links (t : FeatherstoneEntity) ls : FeatherstoneEntity :=
  MkEntity (totalNumOfLinks t) (multiBody t) ls (joints t) (baseRenderable t) (phase t).

Definition set_joints (t : FeatherstoneEntity) js : FeatherstoneEntity :=
  MkEntity (totalNumOfLinks t) (multiBody t) (links t) js (baseRenderable t) (phase t).

Definition set_phase (t : FeatherstoneEntity) p : FeatherstoneEntity :=
  MkEntity (totalNumOfLinks t) (multiBody t) (links t) (joints t) (baseRenderable t) p.

Definition mb_set_pos (m : btMultiBody) l : btMultiBody :=
  MkMultiBody (fixedBase m) l (jointVel m) (manualTorque m) (dampingTorque m)
    (jointAxis m) (jointPivot m) (linkForce m) (linkTorque m).

Definition mb_set_vel (m : btMultiBody) l : btMultiBody :=
  MkMultiBody (fixedBase m) (jointPos m) l (manualTorque m) (dampingTorque m)
    (jointAxis m) (jointPivot m) (linkForce m) (linkTorque m).

Definition mb_set_manual (m : btMultiBody) l : btMultiBody :=
  MkMultiBody (fixedBase m) (jointPos m) (jointVel m) l (dampingTorque m)
    (jointAxis m) (jointPivot m) (linkForce m) (linkTorque m).

Definition mb_set_damping (m : btMultiBody) l : btMultiBody :=
  MkMultiBody (fixedBase m) (jointPos m) (jointVel m) (manualTorque m) l
    (jointAxis m) (jointPivot m) (linkForce m) (linkTorque m).

Definition mb_set_geom (m : btMultiBody) ax pv : btMultiBody :=
  MkMultiBody (fixedBase m) (jointPos m) (jointVel m) (manualTorque m)
    (dampingTorque m) ax pv (linkForce m) (linkTorque m).

Definition mb_set_linkForce (m : btMultiBody) l : btMultiBody :=
  MkMultiBody (fixedBase m) (jointPos m) (jointVel m) (manualTorque m)
    (dampingTorque m) (jointAxis m) (jointPivot m) l (linkTorque m).

Definition mb_set_linkTorque (m : btMultiBody) l : btMultiBody :=
  MkMultiBody (fixedBase m) (jointPos m) (jointVel m) (manualTorque m)
    (dampingTorque m) (jointAxis m) (jointPivot m) (linkForce m) l.

(** Update of one element of a [std::vector]/[btAlignedObjectArray]
    (indices are bounds-checked by the callers). *)
Fixpoint upd {A} (l : list A) (n : nat) (f : A -> A) : list A :=
  match l, n with
  | [], _ => []
  | x :: l', O => f x :: l'
  | x :: l', S n' => x :: upd l' n' f
  end.

(** Errors of the API (section 7 of the spec). *)
Inductive Error := IndexOutOfRange | TopologyViolation | InvalidParameter.

Inductive result (A : Type) :=
  | Ok : A -> result A
  | Err : Error -> result A.
Arguments Ok {A} _.
Arguments Err {A} _.

Definition bind {A B} (r : result A) (f : A -> result B) : result B :=
  match r with Ok a => f a | Err e => Err e end.

Notation "x <- r ;; k" := (bind r (fun x => k)) (at level 61, r at next level, right associativity).

Definition getJoint (index : nat) (t : FeatherstoneEntity) : result FeatherstoneJoint :=
  match nth_error (joints t) index with
  | Some j => Ok j
  | None => Err IndexOutOfRange
  end.

Definition getLink (index : nat) (t : FeatherstoneEntity) : result FeatherstoneLink :=
  match nth_error (links t) index with
  | Some l => Ok l
  | None => Err IndexOutOfRange
  end.

(** Index of a joint's child link in the multi-body's link arrays. *)
Definition mbIndex (j : FeatherstoneJoint) : nat := (child j - 1)%nat.

(** ** Construction (modelled from the spec: [FeatherstoneEntity.cpp] is not
    part of the sources) *)

(** Modelled from the spec: constructor [FeatherstoneEntity(name,
    totalNumOfLinks, baseSolid, world, fixedBase)]; the back end is sized for
    [totalNumOfLinks - 1] joints and the base is link 0. *)
Definition Create (totalNumOfLinks : nat) (baseSolid : SolidEntity)
  (fixedBase : bool) : result FeatherstoneEntity :=
  if Nat.eqb totalNumOfLinks 0 then Err InvalidParameter
  else
    let n := (totalNumOfLinks - 1)%nat in
    Ok (MkEntity totalNumOfLinks
          (MkMultiBody fixedBase (repeat 0 n) (repeat 0 n) (repeat 0 n)
             (repeat 0 n) (repeat vzero n) (repeat vzero n)
             (repeat vzero totalNumOfLinks) (repeat vzero totalNumOfLinks))
          [MkFeatherstoneLink baseSolid btTransform_identity] [] true Unattached).

(** Modelled from the spec: [AddLink]; topology is frozen once attached and
    no more links than declared may be added. *)
Definition AddLink (s : SolidEntity) (tr : btTransform) (t : FeatherstoneEntity)
  : result FeatherstoneEntity :=
  if negb (phase_eqb (phase t) Unattached) then Err TopologyViolation
  else if Nat.leb (totalNumOfLinks t) (length (links t)) then Err TopologyViolation
  else Ok (set_links t (links t ++ [MkFeatherstoneLink s tr])).

(** [c] is already the child of some joint. *)
Definition hasParent (js : list FeatherstoneJoint) (c : nat) : bool :=
  existsb (fun j => Nat.eqb (child j) c) js.

Definition parentOf (js : list FeatherstoneJoint) (c : nat) : option nat :=
  match find (fun j => Nat.eqb (child j) c) js with
  | Some j => Some (parent j)
  | None => None
  end.

(** [x] lies on the chain of parents starting at [a]. *)
Fixpoint reaches (fuel : nat) (js : list FeatherstoneJoint) (a x : nat) : bool :=
  match fuel with
  | O => false
  | S f =>
      if Nat.eqb a x then true
      else match parentOf js a with
           | Some p => reaches f js p x
           | None => false
           end
  end.

(** Modelled from the spec: the common part of [AddRevoluteJoint],
    [AddPrismaticJoint] and [AddFixedJoint].  The link indices are
    bounds-checked; the base cannot be a child, no link gets two parents and
    no cycle is closed; the joint is built with the [FeatherstoneJoint]
    constructor, gets its feedback slot, and its index (call order) is
    returned. *)
Definition AddJoint (ty : eFeatherstoneJointType) (p c : nat)
  (pivot axis : btVector3) (t : FeatherstoneEntity)
  : result (FeatherstoneEntity * nat) :=
  if negb (Nat.ltb p (length (links t)) && Nat.ltb c (length (links t))) then Err IndexOutOfRange
  else if negb (phase_eqb (phase t) Unattached) then Err TopologyViolation
  else if Nat.eqb c 0 || Nat.eqb p c || hasParent (joints t) c
          || reaches (S (length (joints t))) (joints t) p c
  then Err TopologyViolation
  else
    let j := set_feedback (mkFeatherstoneJoint ty p c) (Some feedback0) in
    let mb := multiBody t in
    let mb' := mb_set_geom mb (upd (jointAxis mb) (c - 1)%nat (fun _ => axis))
                              (upd (jointPivot mb) (c - 1)%nat (fun _ => pivot)) in
    Ok (set_joints (set_multiBody t mb') (joints t ++ [j]), length (joints t)).

Definition AddRevoluteJoint (p c : nat) (pivot axis : btVector3)
  (collisionBetweenJointLinks : bool) (t : FeatherstoneEntity) :=
  AddJoint eRevolute p c pivot axis t.

Definition AddPrismaticJoint (p c : nat) (axis : btVector3)
  (collisionBetweenJointLinks : bool) (t : FeatherstoneEntity) :=
  AddJoint ePrismatic p c vzero axis t.

Definition AddFixedJoint (p c : nat) (t : FeatherstoneEntity) :=
  AddJoint eFixed p c vzero vzero t.

(** Replace joint [index] (bounds-checked by the callers). *)
Definition updJoint (index : nat) (f : FeatherstoneJoint -> FeatherstoneJoint)
  (t : FeatherstoneEntity) : FeatherstoneEntity :=
  set_joints t (upd (joints t) index f).

(** Modelled from the spec: [AddJointMotor]: fails on a Fixed joint or when
    a motor is already attached. *)
Definition AddJointMotor (index : nat) (t : FeatherstoneEntity)
  : result FeatherstoneEntity :=
  j <- getJoint index t ;;
  if is_fixed (type j) then Err TopologyViolation
  else match motor j with
       | Some _ => Err TopologyViolation
       | None => Ok (updJoint index (fun j => set_motor j (Some (MkMotor MotorIdle))) t)
       end.

(** Modelled from the spec: [AddJointLimit]: fails on a Fixed joint or when
    [lower > upper]. *)
Definition AddJointLimit (index : nat) (lower upper : Q) (t : FeatherstoneEntity)
  : result FeatherstoneEntity :=
  j <- getJoint index t ;;
  if is_fixed (type j) then Err TopologyViolation
  else if Qlt_le_dec upper lower then Err InvalidParameter
  else Ok (updJoint index (fun j => set_limit j (Some (MkLimit lower upper))) t).

(** ** Actuation (modelled from the spec) *)

Definition setMotorLaw (index : nat) (law : MotorLaw) (t : FeatherstoneEntity)
  : result FeatherstoneEntity :=
  j <- getJoint index t ;;
  match motor j with
  | None => Err TopologyViolation
  | Some _ => Ok (updJoint index (fun j => set_motor j (Some (MkMotor law))) t)
  end.

(** Modelled from the spec: [MotorPositionSetpoint]. *)
Definition MotorPositionSetpoint (index : nat) (pos kp : Q) (t : FeatherstoneEntity) :=
  setMotorLaw index (MotorPosition pos kp) t.

(** Modelled from the spec: [MotorVelocitySetpoint]. *)
Definition MotorVelocitySetpoint (index : nat) (vel kd : Q) (t : FeatherstoneEntity) :=
  setMotorLaw index (MotorVelocity vel kd) t.

(** Modelled from the spec: [DriveJoint] adds a generalized force for the
    current step. *)
Definition DriveJoint (index : nat) (forceTorque : Q) (t : FeatherstoneEntity)
  : result FeatherstoneEntity :=
  j <- getJoint index t ;;
  let mb := multiBody t in
  Ok (set_multiBody t
        (mb_set_manual mb (upd (manualTorque mb) (mbIndex j) (fun x => x + forceTorque)))).

(** Modelled from the spec: [ApplyGravity] adds [m g] at every link's centre
    of mass. *)
Definition ApplyGravity (g : btVector3) (t : FeatherstoneEntity) : FeatherstoneEntity :=
  let mb := multiBody t in
  let lf := fold_left (fun lf k =>
              match nth_error (links t) k with
              | Some l => upd lf k (fun F => vadd F (vscale (solid_mass (solid l)) g))
              | None => lf
              end) (seq 0 (length (links t))) (linkForce mb) in
  set_multiBody t (mb_set_linkForce mb lf).

(** [sign(x)], with [sign(0) = 0]. *)
Definition Qsgn (x : Q) : Q := inject_Z (Z.sgn (Qnum x)).

(** The damping force of a joint at generalized velocity [v]. *)
Definition dampingForce (j : FeatherstoneJoint) (v : Q) : Q :=
  - (Qsgn v) * sigDamping j - v * velDamping j.

(** Modelled from the spec: [ApplyDamping]. *)
Definition ApplyDamping (t : FeatherstoneEntity) : FeatherstoneEntity :=
  let mb := multiBody t in
  let d := fold_left (fun d j =>
             let v := nth (mbIndex j) (jointVel mb) 0 in
             upd d (mbIndex j) (fun x => x + dampingForce j v))
           (joints t) (dampingTorque mb) in
  set_multiBody t (mb_set_damping mb d).

(** Modelled from the spec: [AddLinkForce] / [AddLinkTorque]. *)
Definition AddLinkForce (index : nat) (F : btVector3) (t : FeatherstoneEntity)
  : result FeatherstoneEntity :=
  _ <- getLink index t ;;
  let mb := multiBody t in
  Ok (set_multiBody t (mb_set_linkForce mb (upd (linkForce mb) index (vadd F)))).

Definition AddLinkTorque (index : nat) (tau : btVector3) (t : FeatherstoneEntity)
  : result FeatherstoneEntity :=
  _ <- getLink index t ;;
  let mb := multiBody t in
  Ok (set_multiBody t (mb_set_linkTorque mb (upd (linkTorque mb) index (vadd tau)))).

(** ** Joint state and feedback (modelled from the spec) *)

Definition setJointIC (index : nat) (position velocity : Q) (t : FeatherstoneEntity)
  : result FeatherstoneEntity :=
  j <- getJoint index t ;;
  let mb := multiBody t in
  Ok (set_multiBody t
        (mb_set_vel (mb_set_pos mb (upd (jointPos mb) (mbIndex j) (fun _ => position)))
                    (upd (jointVel mb) (mbIndex j) (fun _ => velocity)))).

(** Negative damping coefficients are an invalid parameter (spec, section 7). *)
Definition setJointDamping (index : nat) (constantFactor viscousFactor : Q)
  (t : FeatherstoneEntity) : result FeatherstoneEntity :=
  _ <- getJoint index t ;;
  if Qlt_le_dec constantFactor 0 then Err InvalidParameter
  else if Qlt_le_dec viscousFactor 0 then Err InvalidParameter
  else Ok (updJoint index (fun j => set_damping j constantFactor viscousFactor) t).

Definition getJointPosition (index : nat) (t : FeatherstoneEntity)
  : result (Q * eFeatherstoneJointType) :=
  j <- getJoint index t ;;
  Ok (nth (mbIndex j) (jointPos (multiBody t)) 0, type j).

Definition getJointVelocity (index : nat) (t : FeatherstoneEntity)
  : result (Q * eFeatherstoneJointType) :=
  j <- getJoint index t ;;
  Ok (nth (mbIndex j) (jointVel (multiBody t)) 0, type j).

(** [getJointTorque]: "Only shows sum of manually applied torques". *)
Definition getJointTorque (index : nat) (t : FeatherstoneEntity) : result Q :=
  j <- getJoint index t ;;
  Ok (nth (mbIndex j) (manualTorque (multiBody t)) 0).

(** [getJointFeedback]: the force on the child's centre of mass, and the
    torque "calculated as a cross product of a vector from CoG to joint pivot
    and the force". *)
Definition getJointFeedback (index : nat) (t : FeatherstoneEntity)
  : result (btVector3 * btVector3) :=
  j <- getJoint index t ;;
  match feedback j with
  | Some fb => Ok (reactionForce fb, cross (comToPivot fb) (reactionForce fb))
  | None => Ok (vzero, vzero)
  end.

Definition getNumOfJoints (t : FeatherstoneEntity) : nat := length (joints t).
Definition getNumOfLinks (t : FeatherstoneEntity) : nat := length (links t).

(** ** The simulation step

    The external back end: forward dynamics and integration of one step
    (new generalized position and velocity of multi-body link [k] given the
    tree and the generalized forces of the step), the joint reaction it
    reports, and link kinematics. *)
Record Backend := MkBackend {
  fdPos : FeatherstoneEntity -> list Q -> nat -> Q;
  fdVel : FeatherstoneEntity -> list Q -> nat -> Q;
  fdReaction : FeatherstoneEntity -> list Q -> nat -> btMultiBodyJointFeedback;
  fkTransform : FeatherstoneEntity -> nat -> btTransform;
  fkLinVel : FeatherstoneEntity -> nat -> btVector3;
  fkAngVel : FeatherstoneEntity -> nat -> btVector3 }.

(** Modelled from the spec: the motor control laws. *)
Definition motorTorque (j : FeatherstoneJoint) (q qd : Q) : Q :=
  match motor j with
  | Some (MkMotor (MotorPosition pos kp)) => kp * (pos - q)
  | Some (MkMotor (MotorVelocity vel kd)) => kd * (vel - qd)
  | _ => 0
  end.

(** All generalized forces of the step: manual, damping and motor. *)
Definition generalizedForces (t : FeatherstoneEntity) : list Q :=
  let mb := multiBody t in
  let base := map (fun k => nth k (manualTorque mb) 0 + nth k (dampingTorque mb) 0)
                  (seq 0 (length (manualTorque mb))) in
  fold_left (fun tau j =>
      upd tau (mbIndex j) (fun x => x + motorTorque j (nth (mbIndex j) (jointPos mb) 0)
                                                       (nth (mbIndex j) (jointVel mb) 0)))
    (joints t) base.

Definition clamp (lower upper x : Q) : Q := Qmin upper (Qmax lower x).

(** Modelled from the spec: one integration step of the owning world.  The
    back end integrates, joint limits are enforced as constraints, feedback
    slots are refilled, and all per-step loads are consumed. *)
Definition StepSimulation (be : Backend) (t : FeatherstoneEntity) : FeatherstoneEntity :=
  let tau := generalizedForces t in
  let mb := multiBody t in
  let q1 := map (fdPos be t tau) (seq 0 (length (jointPos mb))) in
  let qd1 := map (fdVel be t tau) (seq 0 (length (jointVel mb))) in
  let q2 := fold_left (fun q j =>
              match limit j with
              | Some l => upd q (mbIndex j) (clamp (lowerBound l) (upperBound l))
              | None => q
              end) (joints t) q1 in
  let js := map (fun j =>
              match feedback j with
              | Some _ => set_feedback j (Some (fdReaction be t tau (mbIndex j)))
              | None => j
              end) (joints t) in
  let mb' := MkMultiBody (fixedBase mb) q2 qd1
               (repeat 0 (length (manualTorque mb)))
               (repeat 0 (length (dampingTorque mb)))
               (jointAxis mb) (jointPivot mb)
               (repeat vzero (length (linkForce mb)))
               (repeat vzero (length (linkTorque mb))) in
  MkEntity (totalNumOfLinks t) mb' (links t) js (baseRenderable t) Stepping.

(** Modelled from the spec: [AddToDynamicsWorld] freezes the topology. *)
Definition AddToDynamicsWorld (t : FeatherstoneEntity) : result FeatherstoneEntity :=
  if phase_eqb (phase t) Unattached then Ok (set_phase t Attached)
  else Err TopologyViolation.

(** ** The API as one operation type *)

Inductive Op :=
  | OAddLink (s : SolidEntity) (tr : btTransform)
  | OAddRevoluteJoint (p c : nat) (pivot axis : btVector3) (coll : bool)
  | OAddPrismaticJoint (p c : nat) (axis : btVector3) (coll : bool)
  | OAddFixedJoint (p c : nat)
  | OAddJointMotor (index : nat)
  | OAddJointLimit (index : nat) (lower upper : Q)
  | OMotorPositionSetpoint (index : nat) (pos kp : Q)
  | OMotorVelocitySetpoint (index : nat) (vel kd : Q)
  | ODriveJoint (index : nat) (forceTorque : Q)
  | OApplyGravity (g : btVector3)
  | OApplyDamping
  | OAddLinkForce (index : nat) (F : btVector3)
  | OAddLinkTorque (index : nat) (tau : btVector3)
  | OsetJointIC (index : nat) (position velocity : Q)
  | OsetJointDamping (index : nat) (constantFactor viscousFactor : Q)
  | OgetJointPosition (index : nat)
  | OgetJointVelocity (index : nat)
  | OgetJointTorque (index : nat)
  | OgetJointFeedback (index : nat)
  | OgetLink (index : nat)
  | OgetLinkTransform (index : nat)
  | OgetLinkLinearVelocity (index : nat)
  | OgetLinkAngularVelocity (index : nat)
  | OgetNumOfJoints
  | OgetNumOfLinks
  | OAddToDynamicsWorld
  | OStep.

Inductive Ret :=
  | RNone
  | RIndex (n : nat)
  | RScalar (x : Q)
  | RJointState (x : Q) (ty : eFeatherstoneJointType)
  | RFeedback (force torque : btVector3)
  | RLink (l : FeatherstoneLink)
  | RTransform (tr : btTransform)
  | RVector (v : btVector3).

Definition unit_ret (r : result FeatherstoneEntity) : result (FeatherstoneEntity * Ret) :=
  t' <- r ;; Ok (t', RNone).

Definition query {A} (r : result A) (t : FeatherstoneEntity) (f : A -> Ret)
  : result (FeatherstoneEntity * Ret) :=
  a <- r ;; Ok (t, f a).

Definition exec (be : Backend) (o : Op) (t : FeatherstoneEntity)
  : result (FeatherstoneEntity * Ret) :=
  match o with
  | OAddLink s tr => unit_ret (AddLink s tr t)
  | OAddRevoluteJoint p c pv ax cl =>
      r <- AddRevoluteJoint p c pv ax cl t ;; Ok (fst r, RIndex (snd r))
  | OAddPrismaticJoint p c ax cl =>
      r <- AddPrismaticJoint p c ax cl t ;; Ok (fst r, RIndex (snd r))
  | OAddFixedJoint p c => r <- AddFixedJoint p c t ;; Ok (fst r, RIndex (snd r))
  | OAddJointMotor i => unit_ret (AddJointMotor i t)
  | OAddJointLimit i lo up => unit_ret (AddJointLimit i lo up t)
  | OMotorPositionSetpoint i pos kp => unit_ret (MotorPositionSetpoint i pos kp t)
  | OMotorVelocitySetpoint i vel kd => unit_ret (MotorVelocitySetpoint i vel kd t)
  | ODriveJoint i f => unit_ret (DriveJoint i f t)
  | OApplyGravity g => Ok (ApplyGravity g t, RNone)
  | OApplyDamping => Ok (ApplyDamping t, RNone)
  | OAddLinkForce i F => unit_ret (AddLinkForce i F t)
  | OAddLinkTorque i tau => unit_ret (AddLinkTorque i tau t)
  | OsetJointIC i p v => unit_ret (setJointIC i p v t)
  | OsetJointDamping i c v => unit_ret (setJointDamping i c v t)
  | OgetJointPosition i => query (getJointPosition i t) t (fun a => RJointState (fst a) (snd a))
  | OgetJointVelocity i => query (getJointVelocity i t) t (fun a => RJointState (fst a) (snd a))
  | OgetJointTorque i => query (getJointTorque i t) t RScalar
  | OgetJointFeedback i => query (getJointFeedback i t) t (fun a => RFeedback (fst a) (snd a))
  | OgetLink i => query (getLink i t) t RLink
  | OgetLinkTransform i => query (getLink i t) t (fun _ => RTransform (fkTransform be t i))
  | OgetLinkLinearVelocity i => query (getLink i t) t (fun _ => RVector (fkLinVel be t i))
  | OgetLinkAngularVelocity i => query (getLink i t) t (fun _ => RVector (fkAngVel be t i))
  | OgetNumOfJoints => Ok (t, RIndex (getNumOfJoints t))
  | OgetNumOfLinks => Ok (t, RIndex (getNumOfLinks t))
  | OAddToDynamicsWorld => unit_ret (AddToDynamicsWorld t)
  | OStep => Ok (StepSimulation be t, RNone)
  end.

(** A sequence of calls; the first failing call aborts (fail fast). *)
Fixpoint run (be : Backend) (os : list Op) (t : FeatherstoneEntity)
  : result FeatherstoneEntity :=
  match os with
  | [] => Ok t
  | o :: os' => r <- exec be o t ;; run be os' (fst r)
  end.

(** ** Notions used by the statements *)

(** The structural invariant of a tree: declared size, back-end arrays
    sized for [totalNumOfLinks - 1] joints, every child a non-base existing
    link, and no link with two parent joints. *)
Record wf (t : FeatherstoneEntity) : Prop := {
  wf_total : (1 <= totalNumOfLinks t)%nat;
  wf_links : (1 <= length (links t) <= totalNumOfLinks t)%nat;
  wf_pos : length (jointPos (multiBody t)) = (totalNumOfLinks t - 1)%nat;
  wf_vel : length (jointVel (multiBody t)) = (totalNumOfLinks t - 1)%nat;
  wf_manual : length (manualTorque (multiBody t)) = (totalNumOfLinks t - 1)%nat;
  wf_damp : length (dampingTorque (multiBody t)) = (totalNumOfLinks t - 1)%nat;
  wf_children : Forall (fun c => 1 <= c < length (links t))%nat (map child (joints t));
  wf_nodup : NoDup (map child (joints t)) }.

Fixpoint nodupb (l : list nat) : bool :=
  match l with
  | [] => true
  | x :: l' => negb (existsb (Nat.eqb x) l') && nodupb l'
  end.

Definition wfb (t : FeatherstoneEntity) : bool :=
  let n := (totalNumOfLinks t - 1)%nat in
  Nat.leb 1 (totalNumOfLinks t)
  && Nat.leb 1 (length (links t)) && Nat.leb (length (links t)) (totalNumOfLinks t)
  && Nat.eqb (length (jointPos (multiBody t))) n
  && Nat.eqb (length (jointVel (multiBody t))) n
  && Nat.eqb (length (manualTorque (multiBody t))) n
  && Nat.eqb (length (dampingTorque (multiBody t))) n
  && forallb (fun c => Nat.leb 1 c && Nat.ltb c (length (links t))) (map child (joints t))
  && nodupb (map child (joints t)).

Definition is_joint_add (o : Op) : bool :=
  match o with
  | OAddRevoluteJoint _ _ _ _ _ | OAddPrismaticJoint _ _ _ _ | OAddFixedJoint _ _ => true
  | _ => false
  end.

Definition is_topology (o : Op) : bool :=
  match o with
  | OAddLink _ _ => true
  | _ => is_joint_add o
  end.

Definition is_step (o : Op) : bool :=
  match o with OStep => true | _ => false end.

(** Build a tree: the base at construction, then the links, then the joint
    calls. *)
Definition construct (be : Backend) (total : nat) (baseSolid : SolidEntity)
  (fixedBase : bool) (ls : list (SolidEntity * btTransform)) (jcalls : list Op)
  : result FeatherstoneEntity :=
  t0 <- Create total baseSolid fixedBase ;;
  run be (map (fun st => OAddLink (fst st) (snd st)) ls ++ jcalls) t0.

(** Sum of the forces given to [DriveJoint index] in a call sequence. *)
Fixpoint drive_sum (index : nat) (os : list Op) : Q :=
  match os with
  | [] => 0
  | ODriveJoint i f :: os' => if Nat.eqb i index then f + drive_sum index os' else drive_sum index os'
  | _ :: os' => drive_sum index os'
  end.

(** The generalized force applied to a joint so far in the step, before the
    motor law: manual plus damping contributions. *)
Definition appliedForce (t : FeatherstoneEntity) (j : FeatherstoneJoint) : Q :=
  nth (mbIndex j) (manualTorque (multiBody t)) 0 + nth (mbIndex j) (dampingTorque (multiBody t)) 0.

(** Sum of per-joint contributions [c j] landing on multi-body link [k]. *)
Fixpoint contribSum (c : FeatherstoneJoint -> Q) (k : nat) (js : list FeatherstoneJoint) : Q :=
  match js with
  | [] => 0
  | j :: js' => if Nat.eqb (mbIndex j) k then c j + contribSum c k js' else contribSum c k js'
  end.

Inductive IndexKind := JointIndex | LinkIndex.

Definition count (k : IndexKind) (t : FeatherstoneEntity) : nat :=
  match k with JointIndex => length (joints t) | LinkIndex => length (links t) end.

(** The indices an operation takes, with what they index. *)
Definition op_indices (o : Op) : list (IndexKind * nat) :=
  match o with
  | OAddRevoluteJoint p c _ _ _ | OAddPrismaticJoint p c _ _ | OAddFixedJoint p c =>
      [(LinkIndex, p); (LinkIndex, c)]
  | OAddJointMotor i | OAddJointLimit i _ _ | OMotorPositionSetpoint i _ _
  | OMotorVelocitySetpoint i _ _ | ODriveJoint i _ | OsetJointIC i _ _
  | OsetJointDamping i _ _ | OgetJointPosition i | OgetJointVelocity i
  | OgetJointTorque i | OgetJointFeedback i => [(JointIndex, i)]
  | OAddLinkForce i _ | OAddLinkTorque i _ | OgetLink i | OgetLinkTransform i
  | OgetLinkLinearVelocity i | OgetLinkAngularVelocity i => [(LinkIndex, i)]
  | _ => []
  end.

(** An update of a joint that keeps its child link and its type. *)
Definition same_slot (j j' : FeatherstoneJoint) : Prop :=
  child j' = child j /\ type j' = type j.

(** The clamping of one joint's position by its limit during a step. *)
Definition limit_step (q : list Q) (j : FeatherstoneJoint) : list Q :=
  match limit j with
  | Some l => upd q (mbIndex j) (clamp (lowerBound l) (upperBound l))
  | None => q
  end.

End Featherstone.

(** ** [LiDAR360] (src/Library/src/sensors/scalar/LiDAR360.cpp) *)
Module LiDAR.

Local Open Scope R_scope.

(** [Vector3] *)
Record Vector3 := V3 { x : R; y : R; z : R }.

Definition vadd (a b : Vector3) : Vector3 := V3 (x a + x b) (y a + y b) (z a + z b).
Definition vsub (a b : Vector3) : Vector3 := V3 (x a - x b) (y a - y b) (z a - z b).
Definition vscale (a : Vector3) (s : R) : Vector3 := V3 (x a * s) (y a * s) (z a * s).

(** [btVector3::length]: [btSqrt(dot(this))], the square root of the squared norm. *)
Definition length (a : Vector3) : R := sqrt (x a * x a + y a * y a + z a * z a).

(** [btVector3::lerp(v, t)]: [*this + (v - *this) * t], componentwise. *)
Definition lerp (a b : Vector3) (t : R) : Vector3 :=
  V3 (x a + (x b - x a) * t) (y a + (y b - y a) * t) (z a + (z b - z a) * t).

(** [Transform]: the columns of the basis and the origin. *)
Record Transform := MkTransform {
  column0 : Vector3; column1 : Vector3; column2 : Vector3; origin : Vector3 }.

(** The sensor's state used by [InternalUpdate]. *)
Record LiDAR360 := MkLiDAR360 {
  resolution_ : nat;
  layers_ : nat;
  angles_hori_ : list R;
  angles_vert_ : list R;
  rangeMin : R;   (** [channels[0].rangeMin] *)
  rangeMax : R;   (** [channels[0].rangeMax] *)
  distances_ : list R;
  history : list (list R) }.

(** The closest-hit ray query of the dynamics world:
    [Some fraction] when [closest.hasHit()], with
    [closest.m_closestHitFraction]. *)
Definition RayTest := Vector3 -> Vector3 -> option R.

(** [distances_[index] = value] *)
Fixpoint set_nth (l : list R) (n : nat) (v : R) : list R :=
  match l, n with
  | [], _ => []
  | _ :: l', O => v :: l'
  | a :: l', S n' => a :: set_nth l' n' v
  end.

(** The body of the inner loop for layer [j] and step [i]: the ray
    [from]-[to], and the value stored at [distances_[j * resolution_ + i]]. *)
Definition beamRay (mbTrans : Transform) (s : LiDAR360) (j i : nat) : Vector3 * Vector3 :=
  let vAngle := nth j (angles_vert_ s) 0 in
  let hAngle := nth i (angles_hori_ s) 0 in
  let dir := vadd (vadd (vscale (column0 mbTrans) (cos hAngle))
                        (vscale (column1 mbTrans) (sin hAngle)))
                  (vscale (column2 mbTrans) (sin vAngle)) in
  let from := vadd (origin mbTrans) (vscale dir (rangeMin s)) in
  let to := vadd (origin mbTrans) (vscale dir (rangeMax s)) in
  (from, to).

Definition beam (rayTest : RayTest) (mbTrans : Transform) (s : LiDAR360)
  (j i : nat) : R :=
  let from := fst (beamRay mbTrans s j i) in
  let to := snd (beamRay mbTrans s j i) in
  match rayTest from to with
  | Some frac => length (vsub (lerp from to frac) (origin mbTrans))
  | None => 0
  end.

Definition innerLoop (rayTest : RayTest) (mbTrans : Transform) (s : LiDAR360)
  (j : nat) (d : list R) : list R :=
  fold_left (fun d i => set_nth d (j * resolution_ s + i) (beam rayTest mbTrans s j i))
    (seq 0 (resolution_ s)) d.

Definition scanLoop (rayTest : RayTest) (mbTrans : Transform) (s : LiDAR360) : list R :=
  fold_left (fun d j => innerLoop rayTest mbTrans s j d) (seq 0 (layers_ s)) (distances_ s).

(** [LiDAR360::InternalUpdate]: the scan, then
    [Sample s(resolution_ * layers_, distances_.data()); AddSampleToHistory(s);]
    (the sample is the first [resolution_ * layers_] distances, appended to
    the history). *)
Definition InternalUpdate (rayTest : RayTest) (mbTrans : Transform) (s : LiDAR360) : LiDAR360 :=
  let d := scanLoop rayTest mbTrans s in
  MkLiDAR360 (resolution_ s) (layers_ s) (angles_hori_ s) (angles_vert_ s)
    (rangeMin s) (rangeMax s) d
    (history s ++ [firstn (resolution_ s * layers_ s) d]).

End LiDAR.

(** * The rest of [LiDAR360.cpp]: constructor, [setRange], [Render] *)
Module LiDARMore.
Import LiDAR.
Local Open Scope R_scope.

(** The angle tables filled by the constructor:
    [angles.push_back(i / (Scalar)n * range - Scalar(0.5) * range)] for
    [i = 0 .. n-1], pushed onto an empty vector. *)
Definition angleTable (range : R) (n : nat) : list R :=
  map (fun i => INR i / INR n * range - (1/2) * range) (seq 0 n).

(** [LiDAR360::LiDAR360(uniqueName, resolution, layers, frequency,
    historyLength)].  [ang_range_hori] and [ang_range_vert] are the values of
    [UnitSystem::Angle(true, 360)] and [UnitSystem::Angle(true, 42.4)], and
    [BT_LARGE_FLOAT] Bullet's constant, all defined outside this file.  The
    channel's range is [[0, BT_LARGE_FLOAT]]; [distances_] gets
    [resolution_ * layers_] zeros, the product taken in [unsigned int]
    (modulo [2^32]).  [uniqueName], [frequency] and [historyLength] go to
    the [LinkSensor] base, whose code is not in these files; the history
    field starts empty and nothing proved about a constructed sensor reads
    it. *)
Definition LiDAR360_ctor (BT_LARGE_FLOAT ang_range_hori ang_range_vert : R)
  (uniqueName : String.string) (resolution layers : nat) (frequency : R)
  (historyLength : Z) : LiDAR360 :=
  MkLiDAR360 resolution layers
    (angleTable ang_range_hori resolution) (angleTable ang_range_vert layers)
    0 BT_LARGE_FLOAT
    (repeat 0 (N.to_nat ((N.of_nat resolution * N.of_nat layers) mod 2 ^ 32)%N)) [].

(** Bullet's [btClamp(a, lb, ub)]: [if (a < lb) a = lb; else if (ub < a) a = ub;]. *)
Definition btClamp (a lb ub : R) : R :=
  if Rlt_dec a lb then lb else if Rlt_dec ub a then ub else a.

(** [LiDAR360::setRange(rangeMin, rangeMax)]: both arguments are clamped to
    [[0, BT_LARGE_FLOAT]] and stored in the channel; the second component is
    the pair [(min_range_, max_range_)], which get the same values. *)
Definition setRange (BT_LARGE_FLOAT : R) (s : LiDAR360) (rMin rMax : R)
  : LiDAR360 * (R * R) :=
  let rMin' := btClamp rMin 0 BT_LARGE_FLOAT in
  let rMax' := btClamp rMax 0 BT_LARGE_FLOAT in
  (MkLiDAR360 (resolution_ s) (layers_ s) (angles_hori_ s) (angles_vert_ s)
     rMin' rMax' (distances_ s) (history s), (rMin', rMax')).

(** The calls a user makes on a constructed sensor: a scan, or [setRange]. *)
Inductive LiDAROp :=
| LUpdate (rayTest : RayTest) (mbTrans : Transform)
| LSetRange (rMin rMax : R).

Definition stepLiDAR (BT_LARGE_FLOAT : R) (s : LiDAR360) (o : LiDAROp) : LiDAR360 :=
  match o with
  | LUpdate rt m => InternalUpdate rt m s
  | LSetRange a b => fst (setRange BT_LARGE_FLOAT s a b)
  end.

Definition is_update (o : LiDAROp) : bool :=
  match o with LUpdate _ _ => true | LSetRange _ _ => false end.

Definition runLiDAR (BT_LARGE_FLOAT : R) (s : LiDAR360) (os : list LiDAROp) : LiDAR360 :=
  fold_left (stepLiDAR BT_LARGE_FLOAT) os s.

(** [LiDAR360] with [distances_] replaced. *)
Definition set_distances (s : LiDAR360) (d : list R) : LiDAR360 :=
  MkLiDAR360 (resolution_ s) (layers_ s) (angles_hori_ s) (angles_vert_ s)
    (rangeMin s) (rangeMax s) d (history s).

(** The direction drawn by [Render] for a beam:
    [(cos vAngle * cos hAngle, cos vAngle * sin hAngle, sin vAngle)]. *)
Definition renderDir (vAngle hAngle : R) : Vector3 :=
  V3 (cos vAngle * cos hAngle) (cos vAngle * sin hAngle) (sin vAngle).

(** The two points [Render] pushes for beam [(j, i)]: the sensor origin and
    [dir * distances_[j * raysPerLayer + i]] (coordinates as reals; the
    source stores them as [glm::vec3]). *)
Definition renderBeam (s : LiDAR360) (j i : nat) : list Vector3 :=
  let vAngle := nth j (angles_vert_ s) 0 in
  let hAngle := nth i (angles_hori_ s) 0 in
  let dir := renderDir vAngle hAngle in
  let d := nth (j * resolution_ s + i) (distances_ s) 0 in
  [V3 0 0 0; V3 (x dir * d) (y dir * d) (z dir * d)].

(** [item.points] of the [SENSOR_LINES] renderable built by
    [LiDAR360::Render] (the points pushed in loop order, layer by layer). *)
Definition RenderPoints (s : LiDAR360) : list Vector3 :=
  flat_map (fun j => flat_map (fun i => renderBeam s j i) (seq 0 (resolution_ s)))
    (seq 0 (layers_ s)).



(** The sensor frame equal to the world frame. *)
Definition identityFrame : Transform :=
  MkTransform (V3 1 0 0) (V3 0 1 0) (V3 0 0 1) (V3 0 0 0).

End LiDARMore.

(** * Sample inputs *)
Module Samples.
Import Featherstone.
Local Open Scope Q_scope.

(** A back end integrating with unit step and unit inertia, reporting a
    constant reaction: force [(0,1,0)] on the child's centre of mass with the
    pivot one unit along [x]. *)
Definition be0 : Backend :=
  MkBackend
    (fun t tau k => nth k (jointPos (multiBody t)) 0 + nth k (jointVel (multiBody t)) 0 + nth k tau 0)
    (fun t tau k => nth k (jointVel (multiBody t)) 0 + nth k tau 0)
    (fun _ _ _ => MkFeedback (V3 0 1 0) (V3 1 0 0))
    (fun _ _ => btTransform_identity)
    (fun _ _ => vzero)
    (fun _ _ => vzero).

Definition base : SolidEntity := MkSolid 0 2.
Definition link1 : SolidEntity := MkSolid 1 1.
Definition link2 : SolidEntity := MkSolid 2 1.

(** Fixed base, a revolute joint about [z] at the origin, then a prismatic
    joint along [x]. *)
Definition joint_calls : list Op :=
  [OAddRevoluteJoint 0 1 vzero (V3 0 0 1) false;
   OAddPrismaticJoint 1 2 (V3 1 0 0) false].

Definition link_specs : list (SolidEntity * btTransform) :=
  [(link1, btTransform_identity); (link2, btTransform_identity)].

Definition sample_tree : result FeatherstoneEntity :=
  construct be0 3 base true link_specs joint_calls.

Definition the_tree (r : result FeatherstoneEntity) : FeatherstoneEntity :=
  match r with
  | Ok t => t
  | Err _ => MkEntity 0 (MkMultiBody false [] [] [] [] [] [] [] []) [] [] false Unattached
  end.

Definition tree0 : FeatherstoneEntity := the_tree sample_tree.

(** A call sequence within a step: attach, add a velocity servo, set
    initial conditions and damping, drive both joints and apply damping. *)
Definition drive_ops : list Op :=
  [OAddToDynamicsWorld; OAddJointMotor 1; OMotorVelocitySetpoint 1 1 1;
   OsetJointIC 1 0 2; ODriveJoint 1 (3#2); OsetJointDamping 1 1 1; OApplyDamping;
   ODriveJoint 0 5; ODriveJoint 1 (1#2)].

Definition tree1 : FeatherstoneEntity := the_tree (run be0 drive_ops tree0).

End Samples.

(** * A sample LiDAR scan *)
Module LiDARSamples.
Import LiDAR.
Local Open Scope R_scope.

Definition lidar1 : LiDAR360 :=
  MkLiDAR360 2 1 [0; PI] [0] 0 10 [0; 0] [].

Definition origin1 : Transform :=
  MkTransform (V3 1 0 0) (V3 0 1 0) (V3 0 0 1) (V3 0 0 0).

(** A wall hit at half range by every beam. *)
Definition halfway : RayTest := fun _ _ => Some (1/2).

End LiDARSamples.

(** * Proofs about the tree *)
Module FeatherstoneProofs.
Import Featherstone Samples.
Local Open Scope Q_scope.

(** ** Element updates *)

Lemma upd_length {A} (l : list A) n f : length (upd l n f) = length l.
Proof. revert n; induction l as [|a l IH]; intros [|n]; simpl; auto. Qed.

Lemma nth_upd_same {A} (l : list A) n f d :
  (n < length l)%nat -> nth n (upd l n f) d = f (nth n l d).
Proof.
  revert n; induction l as [|a l IH]; intros [|n] H; simpl in *; try lia; auto.
  apply IH; lia.
Qed.

Lemma nth_upd_other {A} (l : list A) n k f d :
  k <> n -> nth k (upd l n f) d = nth k l d.
Proof.
  revert n k; induction l as [|a l IH]; intros [|n] [|k] H; simpl; auto; try congruence.
  all: apply IH; lia.
Qed.

Lemma nth_error_upd_same {A} (l : list A) n f a :
  nth_error l n = Some a -> nth_error (upd l n f) n = Some (f a).
Proof.
  revert n; induction l as [|b l IH]; intros [|n] H; simpl in *; try discriminate.
  - congruence.
  - auto.
Qed.

Lemma nth_error_upd_other {A} (l : list A) n k f :
  k <> n -> nth_error (upd l n f) k = nth_error l k.
Proof.
  revert n k; induction l as [|a l IH]; intros [|n] [|k] H; simpl; auto; try congruence.
  all: apply IH; lia.
Qed.

Lemma nth_error_upd {A} (l : list A) n k f a :
  nth_error l k = Some a -> exists b, nth_error (upd l n f) k = Some b /\ (k = n -> b = f a)
                                      /\ (k <> n -> b = a).
Proof.
  intros H. destruct (Nat.eq_dec k n) as [->|Hne].
  - exists (f a). split; [apply nth_error_upd_same; auto | split; auto; congruence].
  - exists a. rewrite nth_error_upd_other by auto. split; auto. split; auto; congruence.
Qed.

Lemma map_upd {A B} (g : A -> B) (l : list A) n f :
  (forall a, g (f a) = g a) -> map g (upd l n f) = map g l.
Proof.
  intros Hf; revert n; induction l as [|a l IH]; intros [|n]; simpl; f_equal; auto.
Qed.

Lemma fold_upd_length {A B} (l : list A) (xs : list B) (idx : B -> option (nat * (A -> A))) :
  length (fold_left (fun acc b => match idx b with
                                    | Some (n, f) => upd acc n f
                                    | None => acc end) xs l) = length l.
Proof.
  revert l; induction xs as [|b xs IH]; intros l; simpl; auto.
  rewrite IH. destruct (idx b) as [[n f]|]; auto using upd_length.
Qed.

Lemma nth_repeat_in {A} (a d : A) n k : (k < n)%nat -> nth k (repeat a n) d = a.
Proof. revert k; induction n as [|n IH]; intros [|k] H; simpl; try lia; auto. apply IH; lia. Qed.

Lemma nth_map_seq {A} (f : nat -> A) n k d :
  (k < n)%nat -> nth k (map f (seq 0 n)) d = f k.
Proof.
  intros H. rewrite (nth_indep _ d (f 0%nat)) by (rewrite length_map, length_seq; auto).
  rewrite map_nth, seq_nth by auto. reflexivity.
Qed.

(** ** The boolean invariant check *)

Lemma nodupb_NoDup (l : list nat) : nodupb l = true -> NoDup l.
Proof.
  induction l as [|a l IH]; simpl; intros H; constructor.
  - apply andb_true_iff in H as [H _]. intros Hin.
    apply negb_true_iff in H. assert (existsb (Nat.eqb a) l = true) as E
      by (apply existsb_exists; exists a; split; auto; apply Nat.eqb_refl). congruence.
  - apply andb_true_iff in H as [_ H]; auto.
Qed.

Lemma wfb_wf (t : FeatherstoneEntity) : wfb t = true -> wf t.
Proof.
  unfold wfb. intros H. repeat rewrite andb_true_iff in H.
  destruct H as [[[[[[[[H1 H2] H3] H4] H5] H6] H7] H8] H9].
  apply Nat.leb_le in H1, H2, H3. apply Nat.eqb_eq in H4, H5, H6, H7.
  constructor; auto.
  - apply Forall_forall. intros c Hc. rewrite forallb_forall in H8.
    specialize (H8 c Hc). apply andb_true_iff in H8 as [Ha Hb].
    apply Nat.leb_le in Ha. apply Nat.ltb_lt in Hb. lia.
  - apply nodupb_NoDup; auto.
Qed.

(** ** Evaluations on the sample tree *)

Example sample_tree_ok : wfb tree0 = true /\ getNumOfJoints tree0 = 2%nat /\ getNumOfLinks tree0 = 3%nat.
Proof. vm_compute. auto. Qed.

Example sample_torque_after_drive :
  bind (run be0 [ODriveJoint 1 (3#2); ODriveJoint 1 (1#2); OApplyDamping] tree0) (getJointTorque 1)
  = Ok (8#4).
Proof. vm_compute. reflexivity. Qed.

(** ** The structural invariant is kept by every call *)

Lemma bind_ok {A B} (r : result A) (f : A -> result B) b :
  bind r f = Ok b -> exists a, r = Ok a /\ f a = Ok b.
Proof. destruct r; simpl; intros H; [eexists; eauto | discriminate]. Qed.

Lemma getJoint_ok i t j : getJoint i t = Ok j -> nth_error (joints t) i = Some j.
Proof. unfold getJoint. destruct (nth_error _ _); congruence. Qed.

Lemma getJoint_err i t : (length (joints t) <= i)%nat -> getJoint i t = Err IndexOutOfRange.
Proof. unfold getJoint. intros H. rewrite (proj2 (nth_error_None _ _) H). reflexivity. Qed.

Lemma getLink_err i t : (length (links t) <= i)%nat -> getLink i t = Err IndexOutOfRange.
Proof. unfold getLink. intros H. rewrite (proj2 (nth_error_None _ _) H). reflexivity. Qed.

Lemma wf_transfer t t' :
  wf t ->
  totalNumOfLinks t' = totalNumOfLinks t -> links t' = links t ->
  length (jointPos (multiBody t')) = length (jointPos (multiBody t)) ->
  length (jointVel (multiBody t')) = length (jointVel (multiBody t)) ->
  length (manualTorque (multiBody t')) = length (manualTorque (multiBody t)) ->
  length (dampingTorque (multiBody t')) = length (dampingTorque (multiBody t)) ->
  map child (joints t') = map child (joints t) -> wf t'.
Proof.
  intros [] E1 E2 E3 E4 E5 E6 E7.
  constructor; rewrite ?E1, ?E2, ?E3, ?E4, ?E5, ?E6, ?E7; auto.
Qed.

Lemma wf_set_multiBody t mb :
  wf t ->
  length (jointPos mb) = length (jointPos (multiBody t)) ->
  length (jointVel mb) = length (jointVel (multiBody t)) ->
  length (manualTorque mb) = length (manualTorque (multiBody t)) ->
  length (dampingTorque mb) = length (dampingTorque (multiBody t)) ->
  wf (set_multiBody t mb).
Proof. intros; eapply wf_transfer; eauto. Qed.

Lemma wf_updJoint t i f :
  wf t -> (forall j, child (f j) = child j) -> wf (updJoint i f t).
Proof. intros; eapply wf_transfer; eauto. simpl. apply map_upd; auto. Qed.

Lemma AddLink_wf s tr t t' : wf t -> AddLink s tr t = Ok t' -> wf t'.
Proof.
  unfold AddLink. intros [] H.
  destruct (negb _); [discriminate|].
  destruct (Nat.leb _ _) eqn:E; [discriminate|]. injection H as <-.
  apply Nat.leb_gt in E.
  constructor; simpl; rewrite ?length_app; simpl; auto; try lia.
  eapply Forall_impl; [|eauto]. simpl. intros; lia.
Qed.

Lemma AddJoint_spec ty p c pv ax t t' n :
  AddJoint ty p c pv ax t = Ok (t', n) ->
  (p < length (links t))%nat /\ (c < length (links t))%nat /\ c <> 0%nat
  /\ hasParent (joints t) c = false
  /\ t' = set_joints
           (set_multiBody t
              (mb_set_geom (multiBody t)
                 (upd (jointAxis (multiBody t)) (c - 1) (fun _ => ax))
                 (upd (jointPivot (multiBody t)) (c - 1) (fun _ => pv))))
           (joints t ++ [set_feedback (mkFeatherstoneJoint ty p c) (Some feedback0)])
  /\ n = length (joints t).
Proof.
  unfold AddJoint. intros H.
  destruct (negb (Nat.ltb p _ && Nat.ltb c _)) eqn:E1; [discriminate|].
  destruct (negb (phase_eqb _ _)); [discriminate|].
  destruct (Nat.eqb c 0 || Nat.eqb p c || hasParent (joints t) c || reaches _ _ p c) eqn:E3;
    [discriminate|].
  injection H as <- <-.
  apply negb_false_iff, andb_true_iff in E1 as [E1 E1'].
  apply Nat.ltb_lt in E1, E1'.
  repeat rewrite orb_false_iff in E3. destruct E3 as [[[E3 _] E4] _].
  apply Nat.eqb_neq in E3. repeat split; auto.
Qed.

Lemma AddJoint_wf ty p c pv ax t t' n :
  wf t -> AddJoint ty p c pv ax t = Ok (t', n) -> wf t'.
Proof.
  intros Hwf H. apply AddJoint_spec in H as (Hp & Hc & Hc0 & Hpar & -> & _).
  destruct Hwf. constructor; simpl; auto.
  - rewrite map_app. apply Forall_app. split; auto. constructor; simpl; [lia | constructor].
  - rewrite map_app. apply NoDup_app; auto.
    + repeat constructor. simpl; tauto.
    + intros a Ha [Heq|[]]. subst a. simpl in Hpar.
      assert (existsb (fun j => Nat.eqb (child j) c) (joints t) = true); [|unfold hasParent in Hpar; congruence].
      apply in_map_iff in Ha as [j [Hj Hin]].
      apply existsb_exists. exists j. split; auto. apply Nat.eqb_eq; auto.
Qed.

Lemma fold_damping_length (js : list FeatherstoneJoint) (vel d : list Q) :
  length (fold_left (fun d j => upd d (mbIndex j) (fun x => x + dampingForce j (nth (mbIndex j) vel 0)))
            js d) = length d.
Proof.
  revert d; induction js as [|j js IH]; intros d; simpl; auto.
  rewrite IH, upd_length; auto.
Qed.

Lemma fold_limit_length (js : list FeatherstoneJoint) (q : list Q) :
  length (fold_left (fun q j => match limit j with
                                 | Some l => upd q (mbIndex j) (clamp (lowerBound l) (upperBound l))
                                 | None => q end) js q) = length q.
Proof.
  revert q; induction js as [|j js IH]; intros q; simpl; auto.
  rewrite IH. destruct (limit j); auto using upd_length.
Qed.

Lemma Step_wf be t : wf t -> wf (StepSimulation be t).
Proof.
  intros Hwf. eapply wf_transfer; eauto; simpl.
  - rewrite fold_limit_length, length_map, length_seq; auto.
  - rewrite length_map, length_seq; auto.
  - apply repeat_length.
  - apply repeat_length.
  - rewrite map_map. apply map_ext. intros j. destruct (feedback j); reflexivity.
Qed.

Lemma setMotorLaw_upd i law t t' :
  setMotorLaw i law t = Ok t' ->
  exists j, nth_error (joints t) i = Some j /\
            t' = updJoint i (fun j => set_motor j (Some (MkMotor law))) t.
Proof.
  unfold setMotorLaw. intros H. apply bind_ok in H as [j [Hj H]].
  destruct (motor j); [|discriminate]. injection H as <-.
  exists j. split; auto using getJoint_ok.
Qed.

Ltac inv_ok :=
  repeat match goal with
  | H : bind _ _ = Ok _ |- _ => apply bind_ok in H; destruct H as [? [? H]]
  | H : Ok _ = Ok _ |- _ => injection H; clear H; intros; subst
  | H : Err _ = Ok _ |- _ => discriminate H
  end.

Ltac split_ifs H :=
  repeat match type of H with
  | context [if ?b then _ else _] => destruct b
  | context [match ?x with Some _ => _ | None => _ end] => destruct x
  end.

Lemma exec_wf be o t t' r : wf t -> exec be o t = Ok (t', r) -> wf t'.
Proof.
  intros Hwf H; destruct o; simpl in H; unfold unit_ret, query in H; inv_ok.
  - eapply AddLink_wf; eauto.
  - destruct x; eapply AddJoint_wf; eauto.
  - destruct x; eapply AddJoint_wf; eauto.
  - destruct x; eapply AddJoint_wf; eauto.
  - unfold AddJointMotor in H0; inv_ok. split_ifs H0; inv_ok.
    apply wf_updJoint; auto.
  - unfold AddJointLimit in H0; inv_ok. split_ifs H0; inv_ok.
    apply wf_updJoint; auto.
  - apply setMotorLaw_upd in H0 as [j [_ ->]]. apply wf_updJoint; auto.
  - apply setMotorLaw_upd in H0 as [j [_ ->]]. apply wf_updJoint; auto.
  - unfold DriveJoint in H0; inv_ok. apply wf_set_multiBody; simpl; rewrite ?upd_length; auto.
  - apply wf_set_multiBody; simpl; auto.
  - apply wf_set_multiBody; simpl; rewrite ?fold_damping_length; auto.
  - unfold AddLinkForce in H0; inv_ok. apply wf_set_multiBody; simpl; auto.
  - unfold AddLinkTorque in H0; inv_ok. apply wf_set_multiBody; simpl; auto.
  - unfold setJointIC in H0; inv_ok. apply wf_set_multiBody; simpl; rewrite ?upd_length; auto.
  - unfold setJointDamping in H0; inv_ok. split_ifs H0; inv_ok. apply wf_updJoint; auto.
  - auto.
  - auto.
  - auto.
  - auto.
  - auto.
  - auto.
  - auto.
  - auto.
  - auto.
  - auto.
  - unfold AddToDynamicsWorld in H0. split_ifs H0; inv_ok. eapply wf_transfer; eauto.
  - apply Step_wf; auto.
Qed.

(** ** Existing joints keep their child link and type *)

Lemma updJoint_prefix t i f :
  (forall j, same_slot j (f j)) ->
  forall k j, nth_error (joints t) k = Some j ->
  exists j', nth_error (joints (updJoint i f t)) k = Some j' /\ same_slot j j'.
Proof.
  intros Hf k j Hk. simpl. destruct (nth_error_upd (joints t) i k f j Hk) as [b [Hb [E1 E2]]].
  exists b. split; auto. destruct (Nat.eq_dec k i) as [->|Hne].
  - rewrite E1; auto.
  - rewrite E2; auto. split; auto.
Qed.

Lemma exec_prefix be o t t' r :
  exec be o t = Ok (t', r) ->
  forall k j, nth_error (joints t) k = Some j ->
  exists j', nth_error (joints t') k = Some j' /\ same_slot j j'.
Proof.
  intros H k j Hk.
  assert (Hsame : forall t'', joints t'' = joints t ->
            exists j', nth_error (joints t'') k = Some j' /\ same_slot j j')
    by (intros t'' E; rewrite E; exists j; split; auto; split; auto).
  assert (Hupd : forall i f, (forall j, same_slot j (f j)) ->
            exists j', nth_error (joints (updJoint i f t)) k = Some j' /\ same_slot j j')
    by (intros; apply updJoint_prefix; auto).
  assert (Hslot : forall j0, (forall o0, same_slot j0 (set_motor j0 o0))
     /\ (forall o0, same_slot j0 (set_limit j0 o0))
     /\ (forall a b, same_slot j0 (set_damping j0 a b)))
    by (intros; repeat split).
  destruct o; simpl in H; unfold unit_ret, query in H; inv_ok; try (apply Hsame; reflexivity).
  - unfold AddLink in H0. split_ifs H0; inv_ok. apply Hsame; reflexivity.
  - destruct x; apply AddJoint_spec in H0 as (_ & _ & _ & _ & -> & _).
    exists j; simpl; split; [|split; auto]. rewrite nth_error_app1; auto.
    apply nth_error_Some; congruence.
  - destruct x; apply AddJoint_spec in H0 as (_ & _ & _ & _ & -> & _).
    exists j; simpl; split; [|split; auto]. rewrite nth_error_app1; auto.
    apply nth_error_Some; congruence.
  - destruct x; apply AddJoint_spec in H0 as (_ & _ & _ & _ & -> & _).
    exists j; simpl; split; [|split; auto]. rewrite nth_error_app1; auto.
    apply nth_error_Some; congruence.
  - unfold AddJointMotor in H0; inv_ok. split_ifs H0; inv_ok. apply Hupd. intros; apply Hslot; auto.
  - unfold AddJointLimit in H0; inv_ok. split_ifs H0; inv_ok. apply Hupd. intros; apply Hslot; auto.
  - apply setMotorLaw_upd in H0 as [? [_ ->]]. apply Hupd. intros; apply Hslot; auto.
  - apply setMotorLaw_upd in H0 as [? [_ ->]]. apply Hupd. intros; apply Hslot; auto.
  - unfold DriveJoint in H0; inv_ok. apply Hsame; reflexivity.
  - unfold AddLinkForce in H0; inv_ok. apply Hsame; reflexivity.
  - unfold AddLinkTorque in H0; inv_ok. apply Hsame; reflexivity.
  - unfold setJointIC in H0; inv_ok. apply Hsame; reflexivity.
  - unfold setJointDamping in H0; inv_ok. split_ifs H0; inv_ok. apply Hupd. intros; apply Hslot; auto.
  - unfold AddToDynamicsWorld in H0. split_ifs H0; inv_ok. apply Hsame; reflexivity.
  - simpl. rewrite nth_error_map, Hk. simpl.
    eexists; split; [reflexivity|]. destruct (feedback j); split; reflexivity.
Qed.

Lemma run_wf be os t t' : wf t -> run be os t = Ok t' -> wf t'.
Proof.
  revert t; induction os as [|o os IH]; simpl; intros t Hwf H; inv_ok; auto.
  destruct x as [t1 r]. eapply IH; [eapply exec_wf|]; eauto.
Qed.

Lemma run_prefix be os t t' :
  run be os t = Ok t' ->
  forall k j, nth_error (joints t) k = Some j ->
  exists j', nth_error (joints t') k = Some j' /\ same_slot j j'.
Proof.
  revert t; induction os as [|o os IH]; simpl; intros t H k j Hk; inv_ok.
  - exists j; split; auto; split; auto.
  - destruct x as [t1 r]. destruct (exec_prefix _ _ _ _ _ H0 k j Hk) as [j1 [Hj1 [E1 E2]]].
    destruct (IH _ H k j1 Hj1) as [j2 [Hj2 [E3 E4]]].
    exists j2; split; auto; split; congruence.
Qed.

(** ** Only [DriveJoint] and the step touch the manual forces *)

Lemma exec_manual be o t t' r :
  is_step o = false -> (forall i f, o <> ODriveJoint i f) ->
  exec be o t = Ok (t', r) -> manualTorque (multiBody t') = manualTorque (multiBody t).
Proof.
  intros Hs Hd H; destruct o; simpl in H; unfold unit_ret, query in H; inv_ok;
    try reflexivity; try discriminate.
  - unfold AddLink in H0. split_ifs H0; inv_ok. reflexivity.
  - destruct x; apply AddJoint_spec in H0 as (_ & _ & _ & _ & -> & _); reflexivity.
  - destruct x; apply AddJoint_spec in H0 as (_ & _ & _ & _ & -> & _); reflexivity.
  - destruct x; apply AddJoint_spec in H0 as (_ & _ & _ & _ & -> & _); reflexivity.
  - unfold AddJointMotor in H0; inv_ok. split_ifs H0; inv_ok. reflexivity.
  - unfold AddJointLimit in H0; inv_ok. split_ifs H0; inv_ok. reflexivity.
  - apply setMotorLaw_upd in H0 as [? [_ ->]]. reflexivity.
  - apply setMotorLaw_upd in H0 as [? [_ ->]]. reflexivity.
  - exfalso; eapply Hd; reflexivity.
  - unfold AddLinkForce in H0; inv_ok. reflexivity.
  - unfold AddLinkTorque in H0; inv_ok. reflexivity.
  - unfold setJointIC in H0; inv_ok. reflexivity.
  - unfold setJointDamping in H0; inv_ok. split_ifs H0; inv_ok. reflexivity.
  - unfold AddToDynamicsWorld in H0. split_ifs H0; inv_ok. reflexivity.
Qed.

(** ** Facts about joints of a well-formed tree *)

Lemma wf_child_range t i j :
  wf t -> nth_error (joints t) i = Some j ->
  (1 <= child j < length (links t))%nat /\ (mbIndex j < totalNumOfLinks t - 1)%nat.
Proof.
  intros [] Hj. assert (Hin : In (child j) (map child (joints t)))
    by (apply in_map; eapply nth_error_In; eauto).
  rewrite Forall_forall in wf_children0. specialize (wf_children0 _ Hin).
  unfold mbIndex. lia.
Qed.

Lemma wf_child_inj t i i' j j' :
  wf t -> nth_error (joints t) i = Some j -> nth_error (joints t) i' = Some j' ->
  i <> i' -> mbIndex j <> mbIndex j'.
Proof.
  intros Hwf Hj Hj' Hne E.
  destruct (wf_child_range _ _ _ Hwf Hj) as [[A _] _].
  destruct (wf_child_range _ _ _ Hwf Hj') as [[B _] _].
  assert (Ec : child j = child j') by (unfold mbIndex in E; lia).
  destruct Hwf as [_ _ _ _ _ _ _ Hnd].
  apply Hne. eapply (proj1 (NoDup_nth_error _)); eauto.
  - rewrite length_map. apply nth_error_Some. congruence.
  - rewrite !nth_error_map, Hj, Hj'. simpl. congruence.
Qed.

Lemma nth_Forall_zero (l : list Q) k : Forall (fun x => x == 0) l -> nth k l 0 == 0.
Proof.
  intros H. destruct (Nat.lt_ge_cases k (length l)) as [Hk|Hk].
  - rewrite Forall_forall in H. apply H, nth_In; auto.
  - rewrite nth_overflow by auto. reflexivity.
Qed.

Lemma classic_drive (o : Op) :
  (exists i f, o = ODriveJoint i f) \/ (forall i f, o <> ODriveJoint i f).
Proof. destruct o; try (right; intros ? ? E; discriminate E). left; eauto. Qed.

Lemma run_manual be os t t' :
  wf t -> Forall (fun o => is_step o = false) os -> run be os t = Ok t' ->
  forall i j, nth_error (joints t') i = Some j ->
  nth (mbIndex j) (manualTorque (multiBody t')) 0
  == nth (mbIndex j) (manualTorque (multiBody t)) 0 + drive_sum i os.
Proof.
  revert t; induction os as [|o os IH]; intros t Hwf Hs H i j Hj; simpl in H.
  - injection H as <-. simpl. ring.
  - apply bind_ok in H as [[t1 r] [H0 H]]. simpl in H.
    apply Forall_cons_iff in Hs as [Ho Hos].
    assert (Hwf1 : wf t1) by (eapply exec_wf; eauto).
    assert (Hwf' : wf t') by (eapply run_wf; eauto).
    rewrite (IH t1 Hwf1 Hos H i j Hj).
    destruct (classic_drive o) as [[i0 [f ->]]|Hnd].
    + simpl in H0. unfold unit_ret, DriveJoint in H0.
      apply bind_ok in H0 as [t1' [Hd E]]. injection E as <- <-.
      apply bind_ok in Hd as [x [Hg Hd]]. injection Hd as <-.
      apply getJoint_ok in Hg.
      destruct (run_prefix _ _ _ _ H i0 x Hg) as [j0 [Hj0 [Ec _]]].
      simpl. destruct (Nat.eqb i0 i) eqn:Ei.
      * apply Nat.eqb_eq in Ei; subst i0. rewrite Hj in Hj0. injection Hj0 as <-.
        assert (Ei : mbIndex j = mbIndex x) by (unfold mbIndex; rewrite Ec; reflexivity).
        rewrite Ei, nth_upd_same.
        -- ring.
        -- rewrite (wf_manual _ Hwf). apply (wf_child_range _ _ _ Hwf Hg).
      * apply Nat.eqb_neq in Ei.
        assert (Hne : mbIndex j <> mbIndex x).
        { intros E. apply (wf_child_inj _ _ _ _ _ Hwf' Hj Hj0); [congruence|].
          unfold mbIndex in *. rewrite Ec. exact E. }
        rewrite nth_upd_other by auto. reflexivity.
    + rewrite (exec_manual _ _ _ _ _ Ho Hnd H0).
      destruct o; try reflexivity. exfalso; eapply Hnd; reflexivity.
Qed.

(** ** Topology counts *)

Lemma exec_nontopo be o t t' r :
  is_topology o = false -> exec be o t = Ok (t', r) ->
  links t' = links t /\ length (joints t') = length (joints t).
Proof.
  intros Ht H; destruct o; simpl in H; unfold unit_ret, query in H; inv_ok;
    try discriminate; try (split; reflexivity).
  - unfold AddJointMotor in H0; inv_ok. split_ifs H0; inv_ok. simpl; rewrite upd_length; auto.
  - unfold AddJointLimit in H0; inv_ok. split_ifs H0; inv_ok. simpl; rewrite upd_length; auto.
  - apply setMotorLaw_upd in H0 as [? [_ ->]]. simpl; rewrite upd_length; auto.
  - apply setMotorLaw_upd in H0 as [? [_ ->]]. simpl; rewrite upd_length; auto.
  - unfold DriveJoint in H0; inv_ok. auto.
  - unfold AddLinkForce in H0; inv_ok. auto.
  - unfold AddLinkTorque in H0; inv_ok. auto.
  - unfold setJointIC in H0; inv_ok. auto.
  - unfold setJointDamping in H0; inv_ok. split_ifs H0; inv_ok. simpl; rewrite upd_length; auto.
  - unfold AddToDynamicsWorld in H0. split_ifs H0; inv_ok. auto.
  - simpl. rewrite length_map. auto.
Qed.

Lemma run_app be os1 os2 t :
  run be (os1 ++ os2) t = bind (run be os1 t) (run be os2).
Proof.
  revert t; induction os1 as [|o os1 IH]; intros t; simpl; auto.
  destruct (exec be o t); simpl; auto.
Qed.

Lemma run_nontopo be os t t' :
  Forall (fun o => is_topology o = false) os -> run be os t = Ok t' ->
  links t' = links t /\ length (joints t') = length (joints t).
Proof.
  revert t; induction os as [|o os IH]; intros t Hs H; simpl in H.
  - injection H as <-; auto.
  - apply bind_ok in H as [[t1 r] [H0 H]]. apply Forall_cons_iff in Hs as [Ho Hos].
    simpl in H. destruct (exec_nontopo _ _ _ _ _ Ho H0) as [E1 E2].
    destruct (IH _ Hos H) as [E3 E4]. split; congruence.
Qed.

Lemma run_addlinks be ls t t' :
  run be (map (fun st => OAddLink (fst st) (snd st)) ls) t = Ok t' ->
  length (links t') = (length (links t) + length ls)%nat /\ joints t' = joints t.
Proof.
  revert t; induction ls as [|[s tr] ls IH]; intros t H; simpl in H.
  - injection H as <-; simpl; auto.
  - apply bind_ok in H as [[t1 r] [H0 H]]. simpl in H0. unfold unit_ret, AddLink in H0.
    apply bind_ok in H0 as [t2 [H1 H2]]. injection H2 as <- <-.
    simpl in H. split_ifs H1; inv_ok. destruct (IH _ H) as [E1 E2]. simpl in *.
    rewrite E1, length_app; simpl; split; auto; lia.
Qed.

Lemma run_joint_adds be os t t' :
  Forall (fun o => is_joint_add o = true) os -> run be os t = Ok t' ->
  links t' = links t /\ length (joints t') = (length (joints t) + length os)%nat.
Proof.
  revert t; induction os as [|o os IH]; intros t Hs H; simpl in H.
  - injection H as <-; simpl; auto.
  - apply bind_ok in H as [[t1 r] [H0 H]]. apply Forall_cons_iff in Hs as [Ho Hos].
    simpl in H. destruct (IH _ Hos H) as [E1 E2].
    assert (links t1 = links t /\ length (joints t1) = S (length (joints t))) as [E3 E4].
    { destruct o; try discriminate; simpl in H0;
        apply bind_ok in H0 as [[t2 n] [Ha Hb]]; injection Hb as <- <-;
        apply AddJoint_spec in Ha as (_ & _ & _ & _ & -> & _); simpl;
        rewrite length_app; simpl; split; auto; lia. }
    simpl. split; [rewrite E1; exact E3|]. rewrite E2, E4. lia.
Qed.

(** ** Claims about the tree *)

(** C1: for a joint index valid at call time, [getJointTorque] returns the sum
    of the forces given to [DriveJoint] for that joint during the current
    step (a call sequence without a step, started with no manual force
    pending), whatever motor, damping or other calls the sequence contains. *)
Theorem getJointTorque_manual_only be t os t' i :
  wf t -> Forall (fun x => x == 0) (manualTorque (multiBody t)) ->
  Forall (fun o => is_step o = false) os -> run be os t = Ok t' ->
  (i < length (joints t'))%nat ->
  exists tq, getJointTorque i t' = Ok tq /\ tq == drive_sum i os.
Proof.
  intros Hwf H0 Hs Hr Hi.
  destruct (nth_error (joints t') i) as [j|] eqn:Hj;
    [|apply nth_error_None in Hj; lia].
  exists (nth (mbIndex j) (manualTorque (multiBody t')) 0). split.
  - unfold getJointTorque, getJoint. rewrite Hj. reflexivity.
  - rewrite (run_manual be os t t' Hwf Hs Hr i j Hj).
    rewrite (nth_Forall_zero _ _ H0). ring.
Qed.

Lemma getJointTorque_manual_only_witness :
  wf tree0 /\ Forall (fun x => x == 0) (manualTorque (multiBody tree0))
  /\ Forall (fun o => is_step o = false) drive_ops
  /\ run be0 drive_ops tree0 = Ok tree1 /\ (1 < length (joints tree1))%nat
  /\ exists tq, getJointTorque 1 tree1 = Ok tq /\ tq == drive_sum 1 drive_ops.
Proof.
  assert (Hwf : wf tree0) by (apply wfb_wf; vm_compute; reflexivity).
  assert (H0 : Forall (fun x => x == 0) (manualTorque (multiBody tree0)))
    by (vm_compute; repeat constructor).
  assert (Hs : Forall (fun o => is_step o = false) drive_ops) by (repeat constructor).
  assert (Hr : run be0 drive_ops tree0 = Ok tree1) by (vm_compute; reflexivity).
  assert (Hi : (1 < length (joints tree1))%nat) by (vm_compute; lia).
  split; [exact Hwf|]. split; [exact H0|]. split; [exact Hs|]. split; [exact Hr|].
  split; [exact Hi|].
  exact (getJointTorque_manual_only be0 tree0 drive_ops tree1 1 Hwf H0 Hs Hr Hi).
Defined.

(** C3: once the tree is built (the base, one [AddLink] per further declared
    link, one joint call per non-base link, all succeeding), the link count
    is the joint count plus one, and it stays so under every later
    non-topology call sequence. *)
Theorem links_eq_joints_plus_one be total baseSolid fb ls jcalls os t t' :
  length ls = (total - 1)%nat -> length jcalls = (total - 1)%nat ->
  Forall (fun o => is_joint_add o = true) jcalls ->
  construct be total baseSolid fb ls jcalls = Ok t ->
  Forall (fun o => is_topology o = false) os -> run be os t = Ok t' ->
  getNumOfLinks t' = (getNumOfJoints t' + 1)%nat.
Proof.
  intros Hl Hj Hja Hc Hos Hr. unfold construct in Hc.
  apply bind_ok in Hc as [t0 [HC H]]. unfold Create in HC.
  destruct (Nat.eqb total 0) eqn:E; [discriminate|]. apply Nat.eqb_neq in E.
  injection HC as <-. rewrite run_app in H. apply bind_ok in H as [t1 [H1 H2]].
  destruct (run_addlinks _ _ _ _ H1) as [E1 E2].
  destruct (run_joint_adds _ _ _ _ Hja H2) as [E3 E4].
  destruct (run_nontopo _ _ _ _ Hos Hr) as [E5 E6].
  unfold getNumOfLinks, getNumOfJoints.
  rewrite E5, E6, E3, E4, E1, E2. simpl in *. lia.
Qed.

Lemma links_eq_joints_plus_one_witness :
  construct be0 3 base true link_specs joint_calls = Ok tree0
  /\ run be0 [OAddToDynamicsWorld; ODriveJoint 0 1; OStep] tree0
     = Ok (the_tree (run be0 [OAddToDynamicsWorld; ODriveJoint 0 1; OStep] tree0))
  /\ getNumOfLinks (the_tree (run be0 [OAddToDynamicsWorld; ODriveJoint 0 1; OStep] tree0))
     = (getNumOfJoints (the_tree (run be0 [OAddToDynamicsWorld; ODriveJoint 0 1; OStep] tree0)) + 1)%nat.
Proof.
  assert (Hc : construct be0 3 base true link_specs joint_calls = Ok tree0)
    by (vm_compute; reflexivity).
  assert (Hr : run be0 [OAddToDynamicsWorld; ODriveJoint 0 1; OStep] tree0
     = Ok (the_tree (run be0 [OAddToDynamicsWorld; ODriveJoint 0 1; OStep] tree0)))
    by (vm_compute; reflexivity).
  split; [exact Hc|]. split; [exact Hr|].
  apply (links_eq_joints_plus_one be0 3 base true link_specs joint_calls
           [OAddToDynamicsWorld; ODriveJoint 0 1; OStep] tree0); auto.
  repeat constructor.
Defined.

(** ** Damping *)

Lemma fold_damping_notin (js : list FeatherstoneJoint) vel d k :
  ~ In k (map mbIndex js) ->
  nth k (fold_left (fun d j => upd d (mbIndex j) (fun x => x + dampingForce j (nth (mbIndex j) vel 0)))
           js d) 0 = nth k d 0.
Proof.
  revert d; induction js as [|j js IH]; intros d Hk; simpl in *; auto.
  rewrite IH by tauto. apply nth_upd_other. intros E; apply Hk; auto.
Qed.

Lemma fold_damping_in (js : list FeatherstoneJoint) vel d j :
  NoDup (map mbIndex js) -> In j js -> (mbIndex j < length d)%nat ->
  nth (mbIndex j)
    (fold_left (fun d j => upd d (mbIndex j) (fun x => x + dampingForce j (nth (mbIndex j) vel 0)))
       js d) 0
  == nth (mbIndex j) d 0 + dampingForce j (nth (mbIndex j) vel 0).
Proof.
  revert d; induction js as [|j0 js IH]; intros d Hnd Hin Hlt; [destruct Hin|].
  simpl in Hnd. apply NoDup_cons_iff in Hnd as [Hn Hnd]. simpl.
  destruct Hin as [<-|Hin].
  - rewrite fold_damping_notin by auto. rewrite nth_upd_same by auto. reflexivity.
  - assert (Hne : mbIndex j <> mbIndex j0)
      by (intros E; apply Hn; rewrite <- E; apply in_map; auto).
    rewrite IH; auto; [|rewrite upd_length; auto].
    rewrite nth_upd_other by auto. reflexivity.
Qed.

Lemma wf_NoDup_mbIndex t : wf t -> NoDup (map mbIndex (joints t)).
Proof.
  intros [_ _ _ _ _ _ Hc Hnd]. revert Hc Hnd. generalize (joints t) as js.
  induction js as [|j js IH]; simpl; intros Hc Hnd; constructor.
  - apply Forall_cons_iff in Hc as [Hj Hc]. apply NoDup_cons_iff in Hnd as [Hn _].
    intros Hin. apply in_map_iff in Hin as [j' [E Hin]]. apply Hn.
    rewrite Forall_forall in Hc. specialize (Hc (child j') (in_map _ _ _ Hin)).
    unfold mbIndex in E. replace (child j) with (child j') by lia. apply in_map; auto.
  - apply IH; [apply Forall_cons_iff in Hc; tauto | apply NoDup_cons_iff in Hnd; tauto].
Qed.

(** C4: one [ApplyDamping] adds to every joint's generalized force of the step
    exactly [- sign(v) * sigDamping - v * velDamping], with [v] the joint's
    velocity and the coefficients those stored in the joint (the ones
    [setJointDamping] writes); joints, links and all other state are left as
    they were. *)
Theorem ApplyDamping_adds_damping_force t :
  wf t ->
  (forall i j, nth_error (joints t) i = Some j ->
     let v := nth (mbIndex j) (jointVel (multiBody t)) 0 in
     appliedForce (ApplyDamping t) j
     == appliedForce t j + (- Qsgn v * sigDamping j - v * velDamping j))
  /\ joints (ApplyDamping t) = joints t /\ links (ApplyDamping t) = links t
  /\ jointPos (multiBody (ApplyDamping t)) = jointPos (multiBody t)
  /\ jointVel (multiBody (ApplyDamping t)) = jointVel (multiBody t)
  /\ manualTorque (multiBody (ApplyDamping t)) = manualTorque (multiBody t)
  /\ (forall i c v t', setJointDamping i c v t = Ok t' ->
        exists j, nth_error (joints t') i = Some j /\ sigDamping j = c /\ velDamping j = v).
Proof.
  intros Hwf. repeat split; try reflexivity.
  - intros i j Hj v. unfold appliedForce, ApplyDamping. simpl.
    rewrite fold_damping_in; auto.
    + unfold dampingForce, v. ring.
    + apply wf_NoDup_mbIndex; auto.
    + eapply nth_error_In; eauto.
    + rewrite (wf_damp _ Hwf). apply (wf_child_range _ _ _ Hwf Hj).
  - intros i cf vf t' H. unfold setJointDamping in H.
    apply bind_ok in H as [j [Hg H]]. apply getJoint_ok in Hg.
    split_ifs H; try discriminate. injection H as <-.
    exists (set_damping j cf vf). split; auto.
    simpl. apply (nth_error_upd_same _ _ (fun j => set_damping j cf vf)); auto.
Qed.

Lemma ApplyDamping_adds_damping_force_witness :
  wf tree1 /\ joints (ApplyDamping tree1) = joints tree1.
Proof.
  assert (H : wf tree1) by (apply wfb_wf; vm_compute; reflexivity).
  split; [exact H|]. exact (proj1 (proj2 (ApplyDamping_adds_damping_force tree1 H))).
Defined.

Example sample_damping_force :
  match getJoint 1 tree1 with
  | Ok j => appliedForce (ApplyDamping tree1) j - appliedForce tree1 j == -(3#1)
  | Err _ => False
  end.
Proof. vm_compute. reflexivity. Qed.

(** ** Initial conditions *)

(** C5: for a valid joint index, [setJointIC i p v] followed (before any
    step) by [getJointPosition i] and [getJointVelocity i] gives back [p] and
    [v] exactly, with the joint's type. *)
Theorem setJointIC_roundtrip t i p v :
  wf t -> (i < length (joints t))%nat ->
  exists t' ty, setJointIC i p v t = Ok t'
    /\ getJointPosition i t' = Ok (p, ty) /\ getJointVelocity i t' = Ok (v, ty).
Proof.
  intros Hwf Hi.
  destruct (nth_error (joints t) i) as [j|] eqn:Hj; [|apply nth_error_None in Hj; lia].
  destruct (wf_child_range _ _ _ Hwf Hj) as [_ Hk].
  unfold setJointIC, getJointPosition, getJointVelocity, getJoint.
  rewrite Hj. simpl. eexists; exists (type j). split; [reflexivity|].
  simpl. rewrite Hj. simpl.
  rewrite !nth_upd_same; auto; [rewrite (wf_vel _ Hwf) | rewrite (wf_pos _ Hwf)]; auto.
Qed.

Lemma setJointIC_roundtrip_witness :
  wf tree0 /\ (1 < length (joints tree0))%nat /\
  exists t' ty, setJointIC 1 (7#3) ((-1)#2) tree0 = Ok t'
    /\ getJointPosition 1 t' = Ok (7#3, ty) /\ getJointVelocity 1 t' = Ok ((-1)#2, ty).
Proof.
  assert (Hwf : wf tree0) by (apply wfb_wf; vm_compute; reflexivity).
  assert (Hi : (1 < length (joints tree0))%nat) by (vm_compute; lia).
  split; [exact Hwf|]. split; [exact Hi|].
  exact (setJointIC_roundtrip tree0 1 (7#3) ((-1)#2) Hwf Hi).
Defined.

(** ** Bounds checks *)

(** C6: every index-taking call with a joint (link) index not below the
    joint (link) count fails with [IndexOutOfRange]; in particular
    [getJointTorque] at the joint count does. *)
Theorem index_out_of_range be o t k i :
  In (k, i) (op_indices o) -> (count k t <= i)%nat ->
  exec be o t = Err IndexOutOfRange
  /\ getJointTorque (length (joints t)) t = Err IndexOutOfRange.
Proof.
  intros Hin Hc. split.
  2: { unfold getJointTorque. rewrite getJoint_err; auto. }
  destruct o; simpl in Hin;
    repeat match goal with
    | H : _ \/ _ |- _ => destruct H
    | H : False |- _ => destruct H
    | H : (_, _) = (_, _) |- _ => injection H as <- <-
    end; simpl in Hc; simpl;
    unfold unit_ret, query, AddRevoluteJoint, AddPrismaticJoint, AddFixedJoint, AddJoint,
      AddJointMotor, AddJointLimit, MotorPositionSetpoint, MotorVelocitySetpoint, setMotorLaw,
      DriveJoint, AddLinkForce, AddLinkTorque, setJointIC, setJointDamping,
      getJointPosition, getJointVelocity, getJointTorque, getJointFeedback;
    rewrite ?getJoint_err, ?getLink_err by auto; try reflexivity.
  all: rewrite (proj2 (Nat.ltb_ge _ _) Hc), ?andb_false_l, ?andb_false_r; reflexivity.
Qed.

Lemma index_out_of_range_witness :
  exec be0 (OgetJointTorque 2) tree0 = Err IndexOutOfRange
  /\ getJointTorque (length (joints tree0)) tree0 = Err IndexOutOfRange.
Proof.
  apply (index_out_of_range be0 (OgetJointTorque 2) tree0 JointIndex 2).
  - simpl; auto.
  - vm_compute; lia.
Defined.

(** ** Joint limits *)

Lemma clamp_locked l x : clamp l l x == l.
Proof. unfold clamp. apply Q.min_l. apply Q.le_max_l. Qed.

Lemma fold_limit_notin (js : list FeatherstoneJoint) q k :
  ~ In k (map mbIndex js) -> nth k (fold_left limit_step js q) 0 = nth k q 0.
Proof.
  revert q; induction js as [|j js IH]; intros q Hk; simpl in *; auto.
  rewrite IH by tauto. unfold limit_step. destruct (limit j); auto.
  apply nth_upd_other. intros E; apply Hk; auto.
Qed.

Lemma fold_limit_in (js : list FeatherstoneJoint) q j lo up :
  NoDup (map mbIndex js) -> In j js -> limit j = Some (MkLimit lo up) ->
  (mbIndex j < length q)%nat ->
  nth (mbIndex j) (fold_left limit_step js q) 0 = clamp lo up (nth (mbIndex j) q 0).
Proof.
  revert q; induction js as [|j0 js IH]; intros q Hnd Hin Hl Hlt; [destruct Hin|].
  simpl in Hnd. apply NoDup_cons_iff in Hnd as [Hn Hnd]. simpl.
  destruct Hin as [<-|Hin].
  - rewrite fold_limit_notin by auto. unfold limit_step. rewrite Hl.
    rewrite nth_upd_same by auto. reflexivity.
  - assert (Hne : mbIndex j <> mbIndex j0)
      by (intros E; apply Hn; rewrite <- E; apply in_map; auto).
    rewrite IH; auto.
    + unfold limit_step. destruct (limit j0); auto. rewrite nth_upd_other; auto.
    + unfold limit_step. destruct (limit j0); rewrite ?upd_length; auto.
Qed.

Lemma Step_joint be t i j :
  nth_error (joints t) i = Some j ->
  exists j', nth_error (joints (StepSimulation be t)) i = Some j'
    /\ type j' = type j /\ child j' = child j /\ limit j' = limit j.
Proof.
  intros Hj. simpl. rewrite nth_error_map, Hj. simpl.
  eexists; split; [reflexivity|]. destruct (feedback j); repeat split.
Qed.

Lemma Step_locked be t i j l :
  wf t -> nth_error (joints t) i = Some j -> limit j = Some (MkLimit l l) ->
  exists q ty, getJointPosition i (StepSimulation be t) = Ok (q, ty) /\ q == l.
Proof.
  intros Hwf Hj Hl.
  destruct (Step_joint be t i j Hj) as [j' [Hj' [Et [Ec El]]]].
  unfold getJointPosition, getJoint. rewrite Hj'. simpl.
  eexists; eexists; split; [reflexivity|].
  assert (Em : mbIndex j' = mbIndex j) by (unfold mbIndex; congruence).
  rewrite Em. change (fold_left _ (joints t) _) with
    (fold_left limit_step (joints t)
       (map (fdPos be t (generalizedForces t)) (seq 0 (length (jointPos (multiBody t)))))).
  rewrite (fold_limit_in _ _ j l l); auto.
  - apply clamp_locked.
  - apply wf_NoDup_mbIndex; auto.
  - eapply nth_error_In; eauto.
  - rewrite length_map, length_seq, (wf_pos _ Hwf). apply (wf_child_range _ _ _ Hwf Hj).
Qed.

(** C7: [AddJointLimit i lower upper] fails when [lower > upper] or when
    joint [i] is Fixed; with [lower = upper] on a valid non-Fixed joint it
    succeeds, and from then on every step leaves the joint at that value. *)
Theorem AddJointLimit_fails_or_locks :
  (forall t i lower upper,
     (upper < lower \/ exists j, nth_error (joints t) i = Some j /\ type j = eFixed) ->
     exists e, AddJointLimit i lower upper t = Err e)
  /\ (forall be t i l,
        wf t -> (i < length (joints t))%nat ->
        (forall j, nth_error (joints t) i = Some j -> type j <> eFixed) ->
        exists t', AddJointLimit i l l t = Ok t'
          /\ forall n, exists q ty,
               getJointPosition i (Nat.iter (S n) (StepSimulation be) t') = Ok (q, ty) /\ q == l).
Proof.
  split.
  - intros t i lower upper H. unfold AddJointLimit.
    destruct (getJoint i t) as [j|e] eqn:Hg; simpl; [|eauto].
    apply getJoint_ok in Hg.
    destruct (is_fixed (type j)) eqn:Ef; [eauto|].
    destruct (Qlt_le_dec upper lower) as [Hlt|Hle]; [eauto|].
    exfalso. destruct H as [H|[j' [Hj' Ht]]].
    + apply (Qlt_not_le _ _ H Hle).
    + rewrite Hg in Hj'. injection Hj' as <-. rewrite Ht in Ef. discriminate.
  - intros be t i l Hwf Hi Hnf.
    destruct (nth_error (joints t) i) as [j|] eqn:Hj; [|apply nth_error_None in Hj; lia].
    assert (Ef : is_fixed (type j) = false)
      by (specialize (Hnf j eq_refl); destruct (type j); simpl; congruence).
    unfold AddJointLimit, getJoint. rewrite Hj. simpl. rewrite Ef.
    destruct (Qlt_le_dec l l) as [Hlt|_]; [exfalso; apply (Qlt_irrefl _ Hlt)|].
    eexists; split; [reflexivity|].
    set (t1 := updJoint i (fun j => set_limit j (Some (MkLimit l l))) t).
    assert (Hwf1 : wf t1) by (apply wf_updJoint; auto).
    assert (Hj1 : nth_error (joints t1) i = Some (set_limit j (Some (MkLimit l l))))
      by (apply (nth_error_upd_same _ _ (fun j => set_limit j (Some (MkLimit l l)))); auto).
    assert (Hinv : forall n, wf (Nat.iter n (StepSimulation be) t1) /\
              exists j', nth_error (joints (Nat.iter n (StepSimulation be) t1)) i = Some j'
                         /\ limit j' = Some (MkLimit l l)).
    { induction n as [|n [IHw [j' [IHj IHl]]]]; simpl.
      - split; auto. eexists; split; [exact Hj1|reflexivity].
      - split; [apply Step_wf; auto|].
        destruct (Step_joint be _ i j' IHj) as [j'' [Hj'' [_ [_ El]]]].
        exists j''; split; auto; congruence. }
    intros n. destruct (Hinv n) as [Hw [j' [Hj' Hl]]].
    change (Nat.iter (S n) (StepSimulation be) t1)
      with (StepSimulation be (Nat.iter n (StepSimulation be) t1)).
    eapply Step_locked; eauto.
Qed.

Lemma AddJointLimit_fails_or_locks_witness :
  wf tree0 /\ (0 < length (joints tree0))%nat
  /\ exists t', AddJointLimit 0 1 1 tree0 = Ok t'
       /\ forall n, exists q ty,
            getJointPosition 0 (Nat.iter (S n) (StepSimulation be0) t') = Ok (q, ty) /\ q == 1.
Proof.
  assert (Hwf : wf tree0) by (apply wfb_wf; vm_compute; reflexivity).
  assert (Hi : (0 < length (joints tree0))%nat) by (vm_compute; lia).
  assert (Hnf : forall j, nth_error (joints tree0) 0 = Some j -> type j <> eFixed)
    by (vm_compute; intros j E; injection E as <-; discriminate).
  split; [exact Hwf|]. split; [exact Hi|].
  exact (proj2 AddJointLimit_fails_or_locks be0 tree0 0%nat 1 Hwf Hi Hnf).
Defined.

Example sample_locked_after_two_steps :
  match bind (AddJointLimit 0 1 1 tree0) (fun t => getJointPosition 0 (StepSimulation be0 (StepSimulation be0 t))) with
  | Ok (q, _) => q == 1
  | Err _ => False
  end.
Proof. vm_compute. reflexivity. Qed.

(** ** Manual forces last one step *)

Lemma fold_add_nth (c : FeatherstoneJoint -> Q) js b k :
  (k < length b)%nat ->
  nth k (fold_left (fun d j => upd d (mbIndex j) (fun x => x + c j)) js b) 0
  == nth k b 0 + contribSum c k js.
Proof.
  revert b; induction js as [|j js IH]; intros b Hk; simpl.
  - ring.
  - rewrite IH by (rewrite upd_length; auto).
    destruct (Nat.eqb (mbIndex j) k) eqn:E.
    + apply Nat.eqb_eq in E. subst k. rewrite nth_upd_same by auto. ring.
    + apply Nat.eqb_neq in E. rewrite nth_upd_other by auto. reflexivity.
Qed.

Lemma generalizedForces_nth t k :
  (k < length (manualTorque (multiBody t)))%nat ->
  nth k (generalizedForces t) 0
  == nth k (manualTorque (multiBody t)) 0 + nth k (dampingTorque (multiBody t)) 0
     + contribSum (fun j => motorTorque j (nth (mbIndex j) (jointPos (multiBody t)) 0)
                                          (nth (mbIndex j) (jointVel (multiBody t)) 0)) k (joints t).
Proof.
  intros Hk. unfold generalizedForces.
  rewrite (fold_add_nth (fun j => motorTorque j (nth (mbIndex j) (jointPos (multiBody t)) 0)
                                          (nth (mbIndex j) (jointVel (multiBody t)) 0)))
    by (rewrite length_map, length_seq; auto).
  rewrite (nth_map_seq (fun k => nth k (manualTorque (multiBody t)) 0
                                 + nth k (dampingTorque (multiBody t)) 0)) by auto.
  reflexivity.
Qed.

Lemma nth_repeat_zero n k : nth k (repeat 0 n) 0 = 0.
Proof. revert k; induction n as [|n IH]; intros [|k]; simpl; auto. Qed.

(** C8: [DriveJoint i f] adds [f] to joint [i]'s generalized force of the
    current step, which the step's solve receives; nothing else of the tree
    changes (other joints' forces, damping coefficients, motor, limit,
    topology), and after the step no manual force is left for any joint. *)
Theorem DriveJoint_one_step be t i f :
  wf t -> (i < length (joints t))%nat ->
  exists t' j, DriveJoint i f t = Ok t' /\ nth_error (joints t) i = Some j
    /\ appliedForce t' j == appliedForce t j + f
    /\ nth (mbIndex j) (generalizedForces t') 0 == nth (mbIndex j) (generalizedForces t) 0 + f
    /\ (forall i' j', i' <> i -> nth_error (joints t) i' = Some j' ->
          appliedForce t' j' = appliedForce t j' /\ getJointTorque i' t' = getJointTorque i' t)
    /\ t' = set_multiBody t (mb_set_manual (multiBody t) (manualTorque (multiBody t')))
    /\ (forall i', (i' < length (joints t))%nat ->
          getJointTorque i' (StepSimulation be t') = Ok 0).
Proof.
  intros Hwf Hi.
  destruct (nth_error (joints t) i) as [j|] eqn:Hj; [|apply nth_error_None in Hj; lia].
  destruct (wf_child_range _ _ _ Hwf Hj) as [_ Hk].
  assert (Hkm : (mbIndex j < length (manualTorque (multiBody t)))%nat)
    by (rewrite (wf_manual _ Hwf); auto).
  unfold DriveJoint, getJoint. rewrite Hj. simpl.
  set (t' := set_multiBody t (mb_set_manual (multiBody t)
               (upd (manualTorque (multiBody t)) (mbIndex j) (fun x => x + f)))).
  exists t', j. split; [reflexivity|]. split; [reflexivity|]. split; [|split; [|split; [|split]]].
  - unfold appliedForce; simpl. rewrite nth_upd_same by auto. ring.
  - rewrite !generalizedForces_nth; simpl; rewrite ?upd_length; auto.
    rewrite nth_upd_same by auto. ring.
  - intros i' j' Hne Hj'.
    assert (Hm : mbIndex j' <> mbIndex j) by (eapply wf_child_inj; eauto).
    unfold appliedForce, getJointTorque, getJoint; simpl.
    rewrite Hj'. simpl. rewrite nth_upd_other by auto. split; reflexivity.
  - reflexivity.
  - intros i' Hi'.
    destruct (nth_error (joints t) i') as [j'|] eqn:Hj'; [|apply nth_error_None in Hj'; lia].
    unfold getJointTorque, getJoint. simpl. rewrite nth_error_map, Hj'. simpl.
    rewrite nth_repeat_zero. reflexivity.
Qed.

Lemma DriveJoint_one_step_witness :
  wf tree0 /\ (1 < length (joints tree0))%nat /\
  exists t' j, DriveJoint 1 (5#2) tree0 = Ok t' /\ nth_error (joints tree0) 1 = Some j
    /\ appliedForce t' j == appliedForce tree0 j + (5#2)
    /\ nth (mbIndex j) (generalizedForces t') 0 == nth (mbIndex j) (generalizedForces tree0) 0 + (5#2)
    /\ (forall i' j', i' <> 1%nat -> nth_error (joints tree0) i' = Some j' ->
          appliedForce t' j' = appliedForce tree0 j' /\ getJointTorque i' t' = getJointTorque i' tree0)
    /\ t' = set_multiBody tree0 (mb_set_manual (multiBody tree0) (manualTorque (multiBody t')))
    /\ (forall i', (i' < length (joints tree0))%nat ->
          getJointTorque i' (StepSimulation be0 t') = Ok 0).
Proof.
  assert (Hwf : wf tree0) by (apply wfb_wf; vm_compute; reflexivity).
  assert (Hi : (1 < length (joints tree0))%nat) by (vm_compute; lia).
  split; [exact Hwf|]. split; [exact Hi|].
  exact (DriveJoint_one_step be0 tree0 1 (5#2) Hwf Hi).
Defined.

(** ** Feedback *)

(** C2 (amended): the torque reported by [getJointFeedback] is the cross
    product of the child's centre-of-mass-to-pivot vector with the reported
    force (both from the joint's feedback slot, in the child's
    centre-of-mass frame), so it is orthogonal to that vector and to the
    force; nothing removes its component along the joint's axis. *)
Theorem getJointFeedback_cross t i F tau :
  getJointFeedback i t = Ok (F, tau) ->
  exists j, nth_error (joints t) i = Some j
    /\ (forall fb, feedback j = Some fb ->
          F = reactionForce fb /\ tau = cross (comToPivot fb) F
          /\ dot tau (comToPivot fb) == 0)
    /\ dot tau F == 0.
Proof.
  unfold getJointFeedback. intros H. apply bind_ok in H as [j [Hg H]].
  apply getJoint_ok in Hg. exists j. split; auto.
  destruct (feedback j) as [fb|]; injection H as <- <-.
  - split.
    + intros fb' E; injection E as <-. split; auto. split; auto.
      unfold dot, cross; simpl; ring.
    + unfold dot, cross; simpl; ring.
  - split; [discriminate|]. unfold dot; simpl; ring.
Qed.

Lemma getJointFeedback_cross_witness :
  getJointFeedback 0 (StepSimulation be0 tree0) = Ok (V3 0 1 0, cross (V3 1 0 0) (V3 0 1 0))
  /\ exists j, nth_error (joints (StepSimulation be0 tree0)) 0 = Some j
    /\ (forall fb, feedback j = Some fb ->
          V3 0 1 0 = reactionForce fb /\ cross (V3 1 0 0) (V3 0 1 0) = cross (comToPivot fb) (V3 0 1 0)
          /\ dot (cross (V3 1 0 0) (V3 0 1 0)) (comToPivot fb) == 0)
    /\ dot (cross (V3 1 0 0) (V3 0 1 0)) (V3 0 1 0) == 0.
Proof.
  assert (H : getJointFeedback 0 (StepSimulation be0 tree0) = Ok (V3 0 1 0, cross (V3 1 0 0) (V3 0 1 0)))
    by (vm_compute; reflexivity).
  split; [exact H|]. exact (getJointFeedback_cross _ _ _ _ H).
Defined.

(** C2 fails as stated: on the sample tree after one step, joint 0 is revolute
    about [z], the reported force is [(0,1,0)] with the pivot at [(1,0,0)]
    from the child's centre of mass, and the reported torque [(0,0,1)] lies
    along the joint's axis. *)
Lemma getJointFeedback_axial_counterexample :
  exists j F tau,
    nth_error (joints (StepSimulation be0 tree0)) 0 = Some j
    /\ type j = eRevolute
    /\ nth (mbIndex j) (jointAxis (multiBody (StepSimulation be0 tree0))) vzero = V3 0 0 1
    /\ getJointFeedback 0 (StepSimulation be0 tree0) = Ok (F, tau)
    /\ tau = cross (comToPivot (MkFeedback (V3 0 1 0) (V3 1 0 0))) F
    /\ ~ (dot tau (V3 0 0 1) == 0).
Proof.
  vm_compute. do 3 eexists. split; [reflexivity|]. split; [reflexivity|].
  split; [reflexivity|]. split; [reflexivity|]. split; [reflexivity|].
  intros E. discriminate E.
Qed.

End FeatherstoneProofs.

(** * Proofs about the LiDAR scan *)
Module LiDARProofs.
Import LiDAR LiDARSamples.
Local Open Scope R_scope.

Lemma set_nth_length l n v : List.length (set_nth l n v) = List.length l.
Proof. revert n; induction l as [|a l IH]; intros [|n]; simpl; auto. Qed.

Lemma nth_set_nth_same l n v : (n < List.length l)%nat -> nth n (set_nth l n v) 0 = v.
Proof.
  revert n; induction l as [|a l IH]; intros [|n] H; simpl in *; try lia; auto.
  apply IH; lia.
Qed.

Lemma nth_set_nth_other l n k v : k <> n -> nth k (set_nth l n v) 0 = nth k l 0.
Proof.
  revert n k; induction l as [|a l IH]; intros [|n] [|k] H; simpl; auto; try congruence.
  all: apply IH; lia.
Qed.

Lemma fold_set_length (xs : list nat) (idx : nat -> nat) (val : nat -> R) d :
  List.length (fold_left (fun d i => set_nth d (idx i) (val i)) xs d) = List.length d.
Proof.
  revert d; induction xs as [|a xs IH]; intros d; simpl; auto.
  rewrite IH, set_nth_length; auto.
Qed.

Lemma fold_set_other (xs : list nat) (idx : nat -> nat) (val : nat -> R) d k :
  (forall i, In i xs -> k <> idx i) ->
  nth k (fold_left (fun d i => set_nth d (idx i) (val i)) xs d) 0 = nth k d 0.
Proof.
  revert d; induction xs as [|a xs IH]; intros d H; simpl; auto.
  rewrite IH by (intros; apply H; simpl; auto).
  apply nth_set_nth_other. apply H; simpl; auto.
Qed.

Lemma fold_set_in (xs : list nat) (idx : nat -> nat) (val : nat -> R) d i :
  (forall a b, idx a = idx b -> a = b) -> NoDup xs -> In i xs -> (idx i < List.length d)%nat ->
  nth (idx i) (fold_left (fun d i => set_nth d (idx i) (val i)) xs d) 0 = val i.
Proof.
  intros Hinj; revert d; induction xs as [|a xs IH]; intros d Hnd Hin Hlt; [destruct Hin|].
  apply NoDup_cons_iff in Hnd as [Hn Hnd]. simpl.
  destruct Hin as [<-|Hin].
  - rewrite fold_set_other.
    + apply nth_set_nth_same; auto.
    + intros b Hb E. apply Hinj in E. subst; contradiction.
  - apply IH; auto. rewrite set_nth_length; auto.
Qed.

Lemma slot_unique res j i j' i' :
  (i < res)%nat -> (i' < res)%nat -> (j * res + i = j' * res + i')%nat -> j = j' /\ i = i'.
Proof.
  intros Hi Hi' E.
  assert (j = j') by (destruct (Nat.lt_trichotomy j j') as [H|[H|H]]; auto; nia).
  subst; split; auto; lia.
Qed.

Lemma innerLoop_length rt m s j d : List.length (innerLoop rt m s j d) = List.length d.
Proof. apply fold_set_length. Qed.

Lemma scanLoop_length rt m s : List.length (scanLoop rt m s) = List.length (distances_ s).
Proof.
  unfold scanLoop. generalize (distances_ s). induction (seq 0 (layers_ s)) as [|a l IH];
    intros d; simpl; auto. rewrite IH, innerLoop_length; auto.
Qed.

Lemma scanLoop_nth rt m s j i :
  List.length (distances_ s) = (resolution_ s * layers_ s)%nat ->
  (j < layers_ s)%nat -> (i < resolution_ s)%nat ->
  nth (j * resolution_ s + i) (scanLoop rt m s) 0 = beam rt m s j i.
Proof.
  intros Hl Hj Hi. unfold scanLoop.
  assert (Hin : In j (seq 0 (layers_ s))) by (apply in_seq; lia).
  assert (Hnd := seq_NoDup (layers_ s) 0).
  assert (Hlt : (j * resolution_ s + i < List.length (distances_ s))%nat) by (rewrite Hl; nia).
  revert Hin Hnd Hlt. generalize (distances_ s) as d. generalize (seq 0 (layers_ s)) as js.
  induction js as [|j0 js IH]; intros d Hin Hnd Hlt; [destruct Hin|].
  apply NoDup_cons_iff in Hnd as [Hn Hnd]. simpl.
  destruct Hin as [Ej|Hin].
  - subst j0. (* the layer [j] writes the slot, later layers do not touch it *)
    assert (Hrest : forall d', nth (j * resolution_ s + i)
               (fold_left (fun d j => innerLoop rt m s j d) js d') 0 = nth (j * resolution_ s + i) d' 0).
    { clear IH Hlt Hnd. revert Hn. induction js as [|j1 js IH2]; intros Hn d'; simpl; auto.
      rewrite IH2 by (intros E; apply Hn; simpl; auto).
      unfold innerLoop. apply fold_set_other.
      intros i' Hi' E. apply in_seq in Hi'.
      apply slot_unique in E as [E _]; try lia. apply Hn. simpl; auto. }
    rewrite Hrest. unfold innerLoop.
    apply (fold_set_in _ (fun i => j * resolution_ s + i)%nat (beam rt m s j)); auto.
    + intros a b E; lia.
    + apply seq_NoDup.
    + apply in_seq; lia.
  - apply IH; auto. rewrite innerLoop_length; auto.
Qed.

Lemma beam_nonneg rt m s j i : 0 <= beam rt m s j i.
Proof. unfold beam. destruct (rt _ _); [apply sqrt_pos | lra]. Qed.

Lemma beam_zero_hit rt m s j i :
  rangeMin s = 0 -> rt (fst (beamRay m s j i)) (snd (beamRay m s j i)) = Some 0 ->
  beam rt m s j i = 0.
Proof.
  intros H0 Hrt. unfold beam. rewrite Hrt.
  unfold beamRay, lerp, length, vsub, vadd, vscale; simpl; rewrite H0.
  match goal with |- sqrt ?e = 0 => replace e with 0 by ring end.
  apply sqrt_0.
Qed.

Lemma firstn_all_eq (l : list R) n : List.length l = n -> firstn n l = l.
Proof. intros <-; apply firstn_all. Qed.

(** C10: in [LiDAR360::InternalUpdate], when [distances_] has
    [resolution_ * layers_] slots, the slot [j * resolution_ + i] of every
    beam ([j < layers_], [i < resolution_]) holds exactly 0 when the ray test
    reports no hit, and the nonnegative length from the sensor origin to the
    hit point [from.lerp(to, frac)] when it hits; the sample appended to the
    history has [resolution_ * layers_] values, all nonnegative; and with
    [rangeMin = 0] a hit at fraction 0 records 0, the same value as a miss. *)
Theorem InternalUpdate_distances (rayTest : RayTest) (mbTrans : Transform) (s : LiDAR360) :
  List.length (distances_ s) = (resolution_ s * layers_ s)%nat ->
  (forall j i, (j < layers_ s)%nat -> (i < resolution_ s)%nat ->
     let from := fst (beamRay mbTrans s j i) in
     let to := snd (beamRay mbTrans s j i) in
     let d := nth (j * resolution_ s + i) (distances_ (InternalUpdate rayTest mbTrans s)) 0 in
     match rayTest from to with
     | None => d = 0
     | Some frac => d = length (vsub (lerp from to frac) (origin mbTrans)) /\ 0 <= d
     end
     /\ (rangeMin s = 0 -> rayTest from to = Some 0 -> d = 0)) /\
  (exists smp, history (InternalUpdate rayTest mbTrans s) = history s ++ [smp] /\
     List.length smp = (resolution_ s * layers_ s)%nat /\ Forall (fun v => 0 <= v) smp).
Proof.
  intros Hl. split.
  - intros j i Hj Hi from to d. subst d. simpl.
    rewrite scanLoop_nth by auto. split.
    + unfold beam. fold from to. destruct (rayTest from to); [split; [auto|apply sqrt_pos] | auto].
    + intros H0 Hrt. apply beam_zero_hit; auto.
  - exists (scanLoop rayTest mbTrans s). simpl.
    rewrite firstn_all_eq by (rewrite scanLoop_length; auto).
    rewrite scanLoop_length. split; [auto| split; [auto|]].
    apply Forall_forall. intros v Hv.
    apply In_nth with (d := 0) in Hv as [k [Hk <-]].
    rewrite scanLoop_length, Hl in Hk.
    assert (Hr : resolution_ s <> 0%nat) by (intros E; rewrite E in Hk; simpl in Hk; lia).
    rewrite (Nat.div_mod_eq k (resolution_ s)), Nat.mul_comm, scanLoop_nth; auto.
    + apply beam_nonneg.
    + apply Nat.Div0.div_lt_upper_bound; lia.
    + apply Nat.mod_upper_bound; auto.
Qed.

Lemma InternalUpdate_distances_witness :
  List.length (distances_ lidar1) = (resolution_ lidar1 * layers_ lidar1)%nat /\
  nth 0 (distances_ (InternalUpdate halfway origin1 lidar1)) 0 = 5.
Proof.
  split; [reflexivity|].
  destruct (InternalUpdate_distances halfway origin1 lidar1 eq_refl) as [Hb _].
  destruct (Hb 0%nat 0%nat ltac:(simpl; lia) ltac:(simpl; lia)) as [[Hd _] _].
  cbv zeta in Hd. change (0 * resolution_ lidar1 + 0)%nat with 0%nat in Hd. rewrite Hd. unfold length, vsub, lerp, beamRay, vadd, vscale; simpl.
  rewrite cos_0, sin_0.
  match goal with |- sqrt ?e = _ => replace e with (5 * 5) by field end.
  apply sqrt_square; lra.
Defined.

End LiDARProofs.

(** * Proofs about the LiDAR constructor, [setRange] and [Render] *)
Module LiDARMoreProofs.
Import LiDAR LiDARMore LiDARSamples LiDARProofs.
Local Open Scope R_scope.

Lemma angleTable_nth r n i :
  (i < n)%nat -> nth i (angleTable r n) 0 = INR i / INR n * r - (1/2) * r.
Proof.
  intros Hi. unfold angleTable.
  set (f := fun i : nat => INR i / INR n * r - 1 / 2 * r).
  transitivity (nth i (map f (seq 0 n)) (f 0%nat)).
  - apply nth_indep. rewrite length_map, length_seq; auto.
  - rewrite map_nth, seq_nth by auto. reflexivity.
Qed.

(** X1: the constructor's angle tables: for a positive range [r] and
    [n > 0] steps, the table has [n] entries (not [n + 1]), starts at
    [-r/2], is evenly spaced by [r/n], stays in [[-r/2, r/2)], and its last
    entry is one step short of [r/2], so a full-circle table does not repeat
    the [-180/+180] degree beam. *)
Theorem angleTable_layout (r : R) (n : nat) :
  0 < r -> (0 < n)%nat ->
  List.length (angleTable r n) = n /\
  nth 0 (angleTable r n) 0 = - (r / 2) /\
  (forall i, (i < n)%nat -> - (r / 2) <= nth i (angleTable r n) 0 < r / 2) /\
  (forall i, (S i < n)%nat -> nth (S i) (angleTable r n) 0 - nth i (angleTable r n) 0 = r / INR n) /\
  nth (n - 1) (angleTable r n) 0 + r / INR n = r / 2.
Proof.
  intros Hr Hn.
  assert (HN : 0 < INR n) by (apply lt_0_INR; auto).
  split; [unfold angleTable; rewrite length_map, length_seq; auto|].
  split; [rewrite angleTable_nth by auto; simpl; field; lra|].
  split; [|split].
  - intros i Hi. rewrite angleTable_nth by auto.
    assert (Hi' : INR i < INR n) by (apply lt_INR; auto).
    assert (H0 : 0 <= INR i) by apply pos_INR.
    assert (E : INR i / INR n * r = (INR i * r) / INR n) by (field; lra).
    rewrite E. split.
    + apply Rle_trans with (0 - 1/2 * r); [lra|].
      apply Rplus_le_compat_r. apply Rmult_le_pos; [nra|].
      left; apply Rinv_0_lt_compat; auto.
    + assert (INR i * r / INR n < r); [|lra].
      apply Rmult_lt_reg_r with (INR n); auto.
      unfold Rdiv. rewrite Rmult_assoc, Rinv_l by lra. nra.
  - intros i Hi. rewrite !angleTable_nth by lia. rewrite S_INR. field. lra.
  - rewrite angleTable_nth by lia. rewrite minus_INR by lia. simpl. field. lra.
Qed.

Lemma angleTable_layout_witness :
  0 < 1 /\ (0 < 2)%nat /\ List.length (angleTable 1 2) = 2%nat.
Proof.
  split; [lra|]. split; [lia|].
  exact (proj1 (angleTable_layout 1 2 ltac:(lra) ltac:(lia))).
Defined.

Lemma slot_decompose res layers k :
  (k < res * layers)%nat ->
  exists j i, (j < layers)%nat /\ (i < res)%nat /\ k = (j * res + i)%nat.
Proof.
  intros Hk.
  assert (Hr : res <> 0%nat) by (intros E; subst; simpl in Hk; lia).
  exists (k / res)%nat, (k mod res)%nat. split; [|split].
  - apply Nat.Div0.div_lt_upper_bound; lia.
  - apply Nat.mod_upper_bound; auto.
  - rewrite (Nat.div_mod_eq k res) at 1. lia.
Qed.

Lemma scanLoop_nonneg rt m s :
  List.length (distances_ s) = (resolution_ s * layers_ s)%nat ->
  Forall (fun v => 0 <= v) (scanLoop rt m s).
Proof.
  intros Hl. apply Forall_forall. intros v Hv.
  apply In_nth with (d := 0) in Hv as [k [Hk <-]].
  rewrite scanLoop_length, Hl in Hk.
  destruct (slot_decompose _ _ _ Hk) as (j & i & Hj & Hi & ->).
  rewrite scanLoop_nth by auto. apply beam_nonneg.
Qed.


(** The shape every sensor reached from the constructor keeps. *)
Definition lidar_inv (res layers : nat) (s : LiDAR360) : Prop :=
  resolution_ s = res /\ layers_ s = layers /\
  List.length (distances_ s) = (res * layers)%nat /\ Forall (fun v => 0 <= v) (distances_ s).

Lemma stepLiDAR_inv large res layers s o :
  lidar_inv res layers s -> lidar_inv res layers (stepLiDAR large s o).
Proof.
  intros (Hr & Hl & Hd & Hn). destruct o as [rt m|a b];
    unfold stepLiDAR, InternalUpdate, setRange, lidar_inv;
    cbn [fst resolution_ layers_ distances_ history angles_hori_ angles_vert_ rangeMin rangeMax].
  - assert (Hd' : List.length (distances_ s) = (resolution_ s * layers_ s)%nat) by (subst; auto).
    split; [auto|]. split; [auto|]. split; [rewrite scanLoop_length; lia|].
    apply scanLoop_nonneg; auto.
  - repeat split; auto.
Qed.

Lemma ctor_size res layers :
  (N.of_nat res * N.of_nat layers < 2 ^ 32)%N ->
  N.to_nat ((N.of_nat res * N.of_nat layers) mod 2 ^ 32)%N = (res * layers)%nat.
Proof.
  intros H. rewrite N.mod_small by auto. rewrite <- Nat2N.inj_mul. apply Nat2N.id.
Qed.

(** X2: when [resolution * layers] fits in an [unsigned int] (so the
    constructor's allocation does not wrap), after the constructor and any
    sequence of scans ([InternalUpdate], with any ray test and sensor frame)
    and [setRange] calls the sensor keeps its resolution, its layer count
    and [resolution * layers] distances, none negative, and the sample the
    next scan hands to [AddSampleToHistory] has [resolution * layers]
    values, none negative. *)
Theorem runLiDAR_from_ctor (BT_LARGE_FLOAT ang_range_hori ang_range_vert : R)
  (uniqueName : String.string) (resolution layers : nat) (frequency : R) (historyLength : Z)
  (os : list LiDAROp) :
  (N.of_nat resolution * N.of_nat layers < 2 ^ 32)%N ->
  let s := runLiDAR BT_LARGE_FLOAT
             (LiDAR360_ctor BT_LARGE_FLOAT ang_range_hori ang_range_vert uniqueName
                resolution layers frequency historyLength) os in
  resolution_ s = resolution /\ layers_ s = layers /\
  List.length (distances_ s) = (resolution * layers)%nat /\
  Forall (fun v => 0 <= v) (distances_ s) /\
  (forall rayTest mbTrans,
     let smp := firstn (resolution * layers) (distances_ (InternalUpdate rayTest mbTrans s)) in
     List.length smp = (resolution * layers)%nat /\ Forall (fun v => 0 <= v) smp).
Proof.
  intros Hw s. subst s. unfold runLiDAR.
  assert (H : forall s0, lidar_inv resolution layers s0 ->
    lidar_inv resolution layers (fold_left (stepLiDAR BT_LARGE_FLOAT) os s0)).
  { induction os as [|o os IH]; intros s0 Hs; simpl; auto.
    apply IH. apply stepLiDAR_inv; auto. }
  assert (H0 : lidar_inv resolution layers
                 (LiDAR360_ctor BT_LARGE_FLOAT ang_range_hori ang_range_vert uniqueName
                    resolution layers frequency historyLength)).
  { unfold lidar_inv, LiDAR360_ctor; cbn [resolution_ layers_ distances_].
    rewrite ctor_size by auto. split; [auto|]. split; [auto|].
    split; [apply repeat_length|].
    apply Forall_forall. intros v Hv. apply repeat_spec in Hv. lra. }
  destruct (H _ H0) as (Hr & Hl & Hd & Hn).
  split; [auto|]. split; [auto|]. split; [auto|]. split; [auto|].
  intros rt m.
  set (t := fold_left (stepLiDAR BT_LARGE_FLOAT) os
              (LiDAR360_ctor BT_LARGE_FLOAT ang_range_hori ang_range_vert uniqueName
                 resolution layers frequency historyLength)) in *.
  assert (Hd' : List.length (distances_ t) = (resolution_ t * layers_ t)%nat)
    by (rewrite Hr, Hl; auto).
  cbn [distances_ InternalUpdate].
  rewrite firstn_all_eq by (rewrite scanLoop_length; auto).
  split; [rewrite scanLoop_length; auto|]. apply scanLoop_nonneg; auto.
Qed.

Lemma runLiDAR_from_ctor_witness :
  (N.of_nat 1 * N.of_nat 1 < 2 ^ 32)%N /\
  List.length (distances_ (runLiDAR 10 (LiDAR360_ctor 10 1 1 String.EmptyString 1 1 10 5%Z)
                             [LUpdate halfway identityFrame; LSetRange 1 5])) = 1%nat.
Proof.
  assert (Hw : (N.of_nat 1 * N.of_nat 1 < 2 ^ 32)%N) by reflexivity.
  split; [exact Hw|].
  exact (proj1 (proj2 (proj2 (runLiDAR_from_ctor 10 1 1 String.EmptyString 1 1 10 5%Z
                                 [LUpdate halfway identityFrame; LSetRange 1 5] Hw)))).
Defined.




(** X4: a scan overwrites every slot of [distances_]: the distances after
    [InternalUpdate] do not depend on the distances before it (of the
    [resolution_ * layers_] length the constructor allocates), so a stale
    reading never reaches a sample. *)
Theorem InternalUpdate_overwrites (rayTest : RayTest) (mbTrans : Transform) (s : LiDAR360)
  (d : list R) :
  List.length (distances_ s) = (resolution_ s * layers_ s)%nat ->
  List.length d = (resolution_ s * layers_ s)%nat ->
  distances_ (InternalUpdate rayTest mbTrans (set_distances s d))
  = distances_ (InternalUpdate rayTest mbTrans s).
Proof.
  intros Hs Hd. simpl. apply nth_ext with (d := 0) (d' := 0).
  - rewrite !scanLoop_length. simpl; lia.
  - intros k Hk. rewrite scanLoop_length in Hk. simpl in Hk. rewrite Hd in Hk.
    destruct (slot_decompose _ _ _ Hk) as (j & i & Hj & Hi & ->).
    rewrite (scanLoop_nth rayTest mbTrans s j i Hs Hj Hi).
    exact (scanLoop_nth rayTest mbTrans (set_distances s d) j i Hd Hj Hi).
Qed.

Lemma InternalUpdate_overwrites_witness :
  List.length (distances_ (LiDAR360_ctor 10 1 1 String.EmptyString 1 1 10 5%Z)) = 1%nat /\
  List.length [7] = 1%nat /\
  distances_ (InternalUpdate (fun _ _ => None) identityFrame (set_distances (LiDAR360_ctor 10 1 1 String.EmptyString 1 1 10 5%Z) [7]))
  = distances_ (InternalUpdate (fun _ _ => None) identityFrame (LiDAR360_ctor 10 1 1 String.EmptyString 1 1 10 5%Z)).
Proof.
  split; [reflexivity|]. split; [reflexivity|].
  exact (InternalUpdate_overwrites _ _ (LiDAR360_ctor 10 1 1 String.EmptyString 1 1 10 5%Z) [7] eq_refl eq_refl).
Defined.

Lemma flat_map_seq_length {A} (f : nat -> list A) m n :
  (forall a, List.length (f a) = m) -> List.length (flat_map f (seq 0 n)) = (n * m)%nat.
Proof.
  intros Hf. induction n as [|n IH]; [reflexivity|].
  rewrite seq_S, flat_map_app, length_app, IH. simpl. rewrite app_nil_r, Hf. lia.
Qed.

Lemma flat_map_seq_nth {A} (f : nat -> list A) m n p q (d : A) :
  (forall a, List.length (f a) = m) -> (p < n)%nat -> (q < m)%nat ->
  nth (p * m + q) (flat_map f (seq 0 n)) d = nth q (f p) d.
Proof.
  intros Hf. induction n as [|n IH]; intros Hp Hq; [lia|].
  rewrite seq_S, flat_map_app. simpl. rewrite app_nil_r.
  destruct (Nat.eq_dec p n) as [->|Hne].
  - rewrite app_nth2; rewrite (flat_map_seq_length f m n Hf); [|lia].
    f_equal. lia.
  - rewrite app_nth1; [apply IH; lia|]. rewrite (flat_map_seq_length f m n Hf). nia.
Qed.

Lemma renderBeam_length s j i : List.length (renderBeam s j i) = 2%nat.
Proof. reflexivity. Qed.

Lemma RenderPoints_length s :
  List.length (RenderPoints s) = (2 * (resolution_ s * layers_ s))%nat.
Proof.
  unfold RenderPoints.
  rewrite (flat_map_seq_length _ (resolution_ s * 2)%nat); [lia|].
  intros a. apply flat_map_seq_length. intros; reflexivity.
Qed.

Lemma RenderPoints_beam s j i q (d0 : Vector3) :
  (j < layers_ s)%nat -> (i < resolution_ s)%nat -> (q < 2)%nat ->
  nth (2 * (j * resolution_ s + i) + q) (RenderPoints s) d0 = nth q (renderBeam s j i) d0.
Proof.
  intros Hj Hi Hq. unfold RenderPoints.
  replace (2 * (j * resolution_ s + i) + q)%nat
    with (j * (resolution_ s * 2) + (i * 2 + q))%nat by lia.
  rewrite (flat_map_seq_nth _ (resolution_ s * 2)%nat); [| |auto|nia].
  - apply flat_map_seq_nth; auto.
  - intros a. apply flat_map_seq_length. intros; reflexivity.
Qed.

Lemma renderDir_length v h d :
  length (V3 (x (renderDir v h) * d) (y (renderDir v h) * d) (z (renderDir v h) * d)) = Rabs d.
Proof.
  unfold length, renderDir; simpl.
  assert (Hh : cos h ^ 2 + sin h ^ 2 = 1) by (generalize (sin2_cos2 h); unfold Rsqr; intros; nra).
  assert (Hv : cos v ^ 2 + sin v ^ 2 = 1) by (generalize (sin2_cos2 v); unfold Rsqr; intros; nra).
  transitivity (sqrt (d * d)); [|apply sqrt_Rsqr_abs].
  f_equal.
  transitivity (d * d * (cos v ^ 2 * (cos h ^ 2 + sin h ^ 2) + sin v ^ 2)); [ring|].
  rewrite Hh, Rmult_1_r, Hv. ring.
Qed.

(** X5: [Render] pushes two points per beam, [2 * resolution_ * layers_] in
    all; for beam [(j, i)] the first point is the sensor origin and the
    second lies on a unit direction at distance [|distances_[j *
    resolution_ + i]|] from it, so each drawn segment is as long as the
    recorded reading (a miss, recorded as 0, draws a zero-length segment). *)
Theorem RenderPoints_layout (s : LiDAR360) :
  List.length (RenderPoints s) = (2 * (resolution_ s * layers_ s))%nat /\
  forall j i, (j < layers_ s)%nat -> (i < resolution_ s)%nat ->
    nth (2 * (j * resolution_ s + i)) (RenderPoints s) (V3 0 0 0) = V3 0 0 0 /\
    length (nth (2 * (j * resolution_ s + i) + 1) (RenderPoints s) (V3 0 0 0))
      = Rabs (nth (j * resolution_ s + i) (distances_ s) 0).
Proof.
  split; [apply RenderPoints_length|].
  intros j i Hj Hi. split.
  - rewrite <- (Nat.add_0_r (2 * _)). rewrite RenderPoints_beam by lia. reflexivity.
  - rewrite RenderPoints_beam by lia. simpl. apply renderDir_length.
Qed.

Lemma RenderPoints_layout_witness :
  (0 < layers_ (LiDAR360_ctor 10 1 1 String.EmptyString 2 1 10 5%Z))%nat /\ (1 < resolution_ (LiDAR360_ctor 10 1 1 String.EmptyString 2 1 10 5%Z))%nat /\
  nth 2 (RenderPoints (LiDAR360_ctor 10 1 1 String.EmptyString 2 1 10 5%Z)) (V3 0 0 0) = V3 0 0 0.
Proof.
  split; [simpl; lia|]. split; [simpl; lia|].
  exact (proj1 (proj2 (RenderPoints_layout (LiDAR360_ctor 10 1 1 String.EmptyString 2 1 10 5%Z)) 0%nat 1%nat
                   ltac:(simpl; lia) ltac:(simpl; lia))).
Defined.

(** X6: [Render] and [InternalUpdate] use different beam directions.  With
    the sensor frame equal to the world frame, [rangeMin = 0] and a hit at
    a positive fraction of a positive [rangeMax], the point drawn for a beam
    of vertical angle [v] equals the hit point only if [sin v = 0]; for
    [v = 0] it does equal the hit point.  On the other layers the drawn
    point is not where the ray hit. *)
Theorem Render_hit_point (rayTest : RayTest) (s : LiDAR360) (j i : nat) (f : R) :
  List.length (distances_ s) = (resolution_ s * layers_ s)%nat ->
  rangeMin s = 0 -> 0 < rangeMax s ->
  (j < layers_ s)%nat -> (i < resolution_ s)%nat ->
  rayTest (fst (beamRay identityFrame s j i)) (snd (beamRay identityFrame s j i)) = Some f ->
  0 < f ->
  let hit := lerp (fst (beamRay identityFrame s j i)) (snd (beamRay identityFrame s j i)) f in
  let drawn := nth (2 * (j * resolution_ s + i) + 1)
                 (RenderPoints (InternalUpdate rayTest identityFrame s)) (V3 0 0 0) in
  (drawn = hit -> sin (nth j (angles_vert_ s) 0) = 0) /\
  (nth j (angles_vert_ s) 0 = 0 -> drawn = hit).
Proof.
  intros Hl Hmin Hmax Hj Hi Hrt Hf hit drawn.
  set (v := nth j (angles_vert_ s) 0). set (h := nth i (angles_hori_ s) 0).
  set (Rf := rangeMax s * f).
  assert (HRf : 0 < Rf) by (unfold Rf; nra).
  assert (Hhit : hit = V3 (cos h * Rf) (sin h * Rf) (sin v * Rf)).
  { unfold hit, lerp, beamRay, vadd, vscale, identityFrame, Rf. simpl. fold v h.
    rewrite Hmin. f_equal; ring. }
  assert (Hdist : nth (j * resolution_ s + i) (distances_ (InternalUpdate rayTest identityFrame s)) 0
                  = sqrt (Rf * Rf * (1 + sin v * sin v))).
  { simpl. rewrite scanLoop_nth by auto. unfold beam. rewrite Hrt. fold hit. rewrite Hhit.
    unfold length, vsub; simpl. f_equal.
    assert (Hh : cos h ^ 2 + sin h ^ 2 = 1) by (generalize (sin2_cos2 h); unfold Rsqr; intros; nra).
    transitivity (Rf * Rf * ((cos h ^ 2 + sin h ^ 2) + sin v * sin v)); [ring|].
    rewrite Hh. ring. }
  assert (Hdrawn : drawn = V3 (cos v * cos h * sqrt (Rf * Rf * (1 + sin v * sin v)))
                              (cos v * sin h * sqrt (Rf * Rf * (1 + sin v * sin v)))
                              (sin v * sqrt (Rf * Rf * (1 + sin v * sin v)))).
  { assert (HB : drawn = nth 1 (renderBeam (InternalUpdate rayTest identityFrame s) j i) (V3 0 0 0))
      by exact (RenderPoints_beam (InternalUpdate rayTest identityFrame s) j i 1 (V3 0 0 0)
                  Hj Hi ltac:(lia)).
    rewrite HB. simpl.
    change (nth j (angles_vert_ s) 0) with v. change (nth i (angles_hori_ s) 0) with h.
    simpl in Hdist. rewrite Hdist. reflexivity. }
  assert (Hpos : 0 <= Rf * Rf * (1 + sin v * sin v)).
  { apply Rmult_le_pos; [nra|]. nra. }
  split.
  - intros E. rewrite Hdrawn, Hhit in E. apply (f_equal z) in E. simpl in E.
    destruct (Req_dec (sin v) 0) as [H0|Hne]; auto. exfalso.
    apply Rmult_eq_reg_l in E; auto.
    assert (Hsq : sqrt (Rf * Rf * (1 + sin v * sin v)) * sqrt (Rf * Rf * (1 + sin v * sin v))
                  = Rf * Rf * (1 + sin v * sin v)) by (apply sqrt_sqrt; auto).
    rewrite E in Hsq.
    assert (0 < sin v * sin v) by (apply Rsqr_pos_lt; auto).
    assert (0 < Rf * Rf * (sin v * sin v)) by (apply Rmult_lt_0_compat; nra).
    nra.
  - intros Hv. rewrite Hdrawn, Hhit. rewrite Hv, sin_0, cos_0.
    replace (Rf * Rf * (1 + 0 * 0)) with (Rf * Rf) by ring.
    rewrite sqrt_square by lra. f_equal; ring.
Qed.

Lemma Render_hit_point_witness :
  List.length (distances_ (LiDAR360_ctor 10 1 0 String.EmptyString 1 1 10 5%Z)) = 1%nat /\
  nth 1 (RenderPoints (InternalUpdate (fun _ _ => Some (1/2)) identityFrame (LiDAR360_ctor 10 1 0 String.EmptyString 1 1 10 5%Z)))
    (V3 0 0 0)
  = lerp (fst (beamRay identityFrame (LiDAR360_ctor 10 1 0 String.EmptyString 1 1 10 5%Z) 0 0))
         (snd (beamRay identityFrame (LiDAR360_ctor 10 1 0 String.EmptyString 1 1 10 5%Z) 0 0)) (1/2).
Proof.
  split; [reflexivity|].
  exact (proj2 (Render_hit_point (fun _ _ => Some (1/2)) (LiDAR360_ctor 10 1 0 String.EmptyString 1 1 10 5%Z) 0 0 (1/2)
                  eq_refl eq_refl ltac:(simpl; lra) ltac:(simpl; lia) ltac:(simpl; lia)
                  eq_refl ltac:(lra))
           ltac:(simpl; unfold Rdiv; ring)).
Defined.

End LiDARMoreProofs.
